(** * The stochastic sequence generator of [src/sequences/random_markov.py]

    A shallow embedding of [MarkovChain] and [markov], and the properties
    of them that the specification states.

    Conventions of the embedding.
    - Python integers are [Z]; [//] and [%] are floor division and its
      remainder, which is what [Z.div] and [Z.modulo] compute.
    - Python floats are binary64 values, [PrimFloat.float].
    - A Python list that is shared between the caller and [markov] (the
      seed list, the produced sequence) lives in a store of list objects
      and is passed around by address.  The other lists of [markov] are
      local to one call and are plain values.
    - The module [random] is a script of outcomes that the library calls
      consume in order.
    - An exception is the name of its class.
    - The [print] calls only format values that are already computed;
      they are left out. *)

From Stdlib Require Import ZArith String Ascii Bool Lia PrimFloat DecimalString List.
From Stdlib Require Import Permutation.
Import ListNotations.

Local Open Scope Z_scope.

(** ** Outcomes of Python expressions *)

Inductive exn : Type := PyExc (name : string).

Definition IndexError : exn := PyExc "IndexError"%string.
Definition ZeroDivisionError : exn := PyExc "ZeroDivisionError"%string.
Definition ValueError : exn := PyExc "ValueError"%string.

(** The error kinds that the specification names.  No statement of the
    source raises them; they are declared so that the specification's
    sentences can be written down. *)
Definition InsufficientSeedError : exn := PyExc "InsufficientSeedError"%string.
Definition DegenerateRowError : exn := PyExc "DegenerateRowError"%string.

(** Reading a list object through an address that the store does not
    hold.  A Python program cannot do this; the embedding reports it
    under a name of its own, so that no result depends on it silently. *)
Definition DanglingReference : exn := PyExc "<dangling reference>"%string.

Inductive outcome (A : Type) : Type :=
| Ok (a : A)
| Raise (e : exn).
Arguments Ok {A} a.
Arguments Raise {A} e.

Definition obind {A B : Type} (o : outcome A) (k : A -> outcome B) : outcome B :=
  match o with
  | Ok a => k a
  | Raise e => Raise e
  end.

(** ** Python primitives on integers, floats and lists *)

(** [a // b] on integers. *)
Definition py_floordiv (a b : Z) : outcome Z :=
  if b =? 0 then Raise ZeroDivisionError else Ok (a / b).

(** [a % b] on integers. *)
Definition py_mod (a b : Z) : outcome Z :=
  if b =? 0 then Raise ZeroDivisionError else Ok (a mod b).

(** [a / b] on floats: a divisor that compares equal to zero raises. *)
Definition py_truediv (a b : float) : outcome float :=
  if PrimFloat.eqb b 0%float then Raise ZeroDivisionError
  else Ok (PrimFloat.div a b).

(** [sum(row)]: addition from the left, starting from 0.  (An
    interpreter that compensates the rounding of the sum returns the same
    value on the rows of zeros, the only rows whose sum the theorems
    below evaluate.) *)
Definition py_sum (row : list float) : float :=
  fold_left PrimFloat.add row 0%float.

(** The position that the subscript [i] denotes in a list of length [n]:
    a negative subscript counts from the end. *)
Definition py_position (n : nat) (i : Z) : option nat :=
  let j := if i <? 0 then i + Z.of_nat n else i in
  if (0 <=? j) && (j <? Z.of_nat n) then Some (Z.to_nat j) else None.

(** [l[i]]. *)
Definition py_index {A : Type} (l : list A) (i : Z) : outcome A :=
  match py_position (length l) i with
  | Some p =>
      match nth_error l p with
      | Some x => Ok x
      | None => Raise IndexError
      end
  | None => Raise IndexError
  end.

Fixpoint list_set {A : Type} (l : list A) (p : nat) (x : A) : list A :=
  match l, p with
  | [], _ => []
  | _ :: t, O => x :: t
  | h :: t, S p' => h :: list_set t p' x
  end.

(** [l[i] = x]. *)
Definition py_setitem {A : Type} (l : list A) (i : Z) (x : A) : outcome (list A) :=
  match py_position (length l) i with
  | Some p => Ok (list_set l p x)
  | None => Raise IndexError
  end.

(** [range(a, b)]. *)
Definition py_range (a b : Z) : list Z :=
  map (fun k => a + Z.of_nat k) (seq 0 (Z.to_nat (b - a))).

(** [[f(p) for p in l]], where [f] may raise. *)
Fixpoint comprehension {A B : Type} (f : A -> outcome B) (l : list A)
  : outcome (list B) :=
  match l with
  | [] => Ok []
  | p :: t => obind (f p) (fun y => obind (comprehension f t) (fun ys => Ok (y :: ys)))
  end.

(** [str(c)] for an integer. *)
Definition py_str (c : Z) : string := NilZero.string_of_int (Z.to_int c).

(** ** The world: list objects and the random source *)

(** One outcome of a call into the module [random]. *)
Inductive draw : Type :=
| Uniform (u : float)          (* random.random() *)
| Sample (picks : list nat)    (* random.sample: the positions picked *)
| Randint (c : Z)              (* random.randint *)
| Choice (j : nat).            (* random.choices: the position chosen *)

Definition loc : Type := nat.

Record world : Type := mkWorld {
  heap : list (list Z);   (* the list objects, by address *)
  tape : list draw;       (* the outcomes still to come *)
  calls : nat             (* calls made into [random] so far *)
}.

Definition M (A : Type) : Type := world -> outcome A * world.

Definition ret {A : Type} (a : A) : M A := fun w => (Ok a, w).

Definition raise {A : Type} (e : exn) : M A := fun w => (Raise e, w).

Definition lift {A : Type} (o : outcome A) : M A := fun w => (o, w).

Definition bind {A B : Type} (m : M A) (k : A -> M B) : M B :=
  fun w =>
    match m w with
    | (Ok a, w') => k a w'
    | (Raise e, w') => (Raise e, w')
    end.

Declare Scope py_scope.
Delimit Scope py_scope with py.
Notation "x <- m ;; k" := (bind m (fun x => k))
  (at level 61, m at next level, right associativity) : py_scope.
Notation "' pat <- m ;; k" := (bind m (fun x => match x with pat => k end))
  (at level 61, pat pattern, m at next level, right associativity) : py_scope.
Local Open Scope py_scope.

(** [for x in xs: acc = body(x, acc)]. *)
Fixpoint for_each {A S : Type} (xs : list A) (body : A -> S -> M S) (acc : S)
  : M S :=
  match xs with
  | [] => ret acc
  | x :: xs' => acc' <- body x acc ;; for_each xs' body acc'
  end.

(** [[m() for _ in range(n)]]. *)
Fixpoint repeat_call {A : Type} (n : nat) (m : M A) : M (list A) :=
  match n with
  | O => ret []
  | S n' => x <- m ;; xs <- repeat_call n' m ;; ret (x :: xs)
  end.

(** *** List objects *)

Definition load (l : loc) : M (list Z) :=
  fun w =>
    match nth_error (heap w) l with
    | Some v => (Ok v, w)
    | None => (Raise DanglingReference, w)
    end.

(** [l.copy()]: a new object with the same elements. *)
Definition list_copy (l : loc) : M loc :=
  fun w =>
    match nth_error (heap w) l with
    | Some v =>
        (Ok (length (heap w)),
         mkWorld (heap w ++ [v]) (tape w) (calls w))
    | None => (Raise DanglingReference, w)
    end.

(** [l.append(x)]: the object at [l] grows in place. *)
Definition list_append (l : loc) (x : Z) : M unit :=
  fun w =>
    match nth_error (heap w) l with
    | Some v =>
        (Ok tt, mkWorld (list_set (heap w) l (v ++ [x])) (tape w) (calls w))
    | None => (Raise DanglingReference, w)
    end.

(** *** The module [random]

    Each call takes the next entry of the script.  When the script is
    exhausted, or its next entry is not an outcome the call can have, the
    call returns a fixed legal outcome instead; so every script denotes a
    run, and every run is denoted by the script of its outcomes. *)

Definition next_draw (w : world) : option draw * world :=
  match tape w with
  | [] => (None, mkWorld (heap w) [] (S (calls w)))
  | d :: t => (Some d, mkWorld (heap w) t (S (calls w)))
  end.

(** [random.random()]. *)
Definition random_random : M float :=
  fun w =>
    match next_draw w with
    | (Some (Uniform u), w') => (Ok u, w')
    | (_, w') => (Ok 0x1p-1%float, w')
    end.

Fixpoint distinct (l : list nat) : bool :=
  match l with
  | [] => true
  | p :: t => negb (existsb (Nat.eqb p) t) && distinct t
  end.

(** [picks] are [k] different positions of a population of [n]. *)
Definition legal_picks (n k : nat) (picks : list nat) : bool :=
  (length picks =? k)%nat && forallb (fun p => (p <? n)%nat) picks && distinct picks.

Definition take_picks {A : Type} (population : list A) (picks : list nat) : list A :=
  flat_map (fun p => match nth_error population p with
                     | Some x => [x]
                     | None => []
                     end) picks.

(** [random.sample(population, k)]: [k] elements at different positions,
    in the order they were picked. *)
Definition random_sample {A : Type} (population : list A) (k : Z) : M (list A) :=
  fun w =>
    if (k <? 0) || (Z.of_nat (length population) <? k) then (Raise ValueError, w)
    else
      let n := length population in
      match next_draw w with
      | (Some (Sample picks), w') =>
          if legal_picks n (Z.to_nat k) picks
          then (Ok (take_picks population picks), w')
          else (Ok (take_picks population (seq 0 (Z.to_nat k))), w')
      | (_, w') => (Ok (take_picks population (seq 0 (Z.to_nat k))), w')
      end.

(** [random.randint(a, b)]: an integer between [a] and [b], both
    included. *)
Definition random_randint (a b : Z) : M Z :=
  fun w =>
    if b <? a then (Raise ValueError, w)
    else
      match next_draw w with
      | (Some (Randint c), w') =>
          if (a <=? c) && (c <=? b) then (Ok c, w') else (Ok a, w')
      | (_, w') => (Ok a, w')
      end.

(** [random.choices(range(len(weights)), weights)[0]]: a position of
    [weights].  The rows that [markov] passes are normalised, so their
    total weight is positive; the library's rejection of a total that is
    not positive is not modelled. *)
Definition random_choices (weights : list float) : M nat :=
  fun w =>
    match weights with
    | [] => (Raise IndexError, w)
    | _ :: _ =>
        match next_draw w with
        | (Some (Choice j), w') =>
            if (j <? length weights)%nat then (Ok j, w') else (Ok O, w')
        | (_, w') => (Ok O, w')
        end
    end.

(** ** The program *)

Definition operator : Type := Z -> Z -> outcome Z.

(** [operation_pool], lines 107-130: each entry is a function and its
    description. *)
Definition operation_pool : list (operator * string) :=
  [ (fun x y => Ok (x + y), "x + y"%string);
    (fun x y => Ok (x - y), "x - y"%string);
    (fun x y => Ok (y - x), "y - x"%string);
    (fun x y => Ok (x + y + 1), "x + y + 1"%string);
    (fun x y => Ok (x - y + 1), "x - y + 1"%string);
    (fun x y => Ok (Z.abs (x - y)), "abs(x - y)"%string);
    (fun x y => py_floordiv (x + y) 2, "(x + y) // 2"%string);
    (fun x y =>
       obind (py_mod (x - y) 2) (fun r =>
         if r =? 0 then py_floordiv (x - y) 2 else py_floordiv (x - y + 1) 2),
     "(x - y) // 2"%string);
    (fun x y =>
       obind (py_mod (y - x) 2) (fun r =>
         if r =? 0 then py_floordiv (y - x) 2 else py_floordiv (y - x + 1) 2),
     "(y - x) // 2"%string);
    (fun x y => Ok (Z.max x y), "max(x, y)"%string);
    (fun x y => Ok (Z.min x y), "min(x, y)"%string);
    (fun x y => Ok (x * 2), "x * 2"%string);
    (fun x y => Ok (y * 2), "y * 2"%string);
    (fun x y => Ok ((x + y) * 2), "(x + y) * 2"%string);
    (fun x y => py_floordiv x (if negb (y =? 0) then y else 1), "x // y"%string);
    (fun x y => py_floordiv y (if negb (x =? 0) then x else 1), "y // x"%string) ].

(** The operator that line 145 builds for the constant [c], and the
    name that line 146 gives it. *)
Definition variation (c : Z) : operator := fun x y => Ok (x + y + c).

Definition variation_name (c : Z) : string := ("x + y + " ++ py_str c)%string.

(** [class MarkovChain].  [markov] always passes [function_names], so the
    branch of [__init__] that reads the names off the source text of the
    functions is never taken and is not modelled. *)
Record MarkovChain : Type := mkMarkovChain {
  transition_matrix : list (list float);
  functions_matrix : list operator;
  function_names : list string;
  state : Z
}.

(** [MarkovChain.update_state], lines 65-68. *)
Definition update_state (self : MarkovChain) : M MarkovChain :=
  probabilities <- lift (py_index (transition_matrix self) (state self)) ;;
  next_state <- random_choices probabilities ;;
  ret (mkMarkovChain (transition_matrix self) (functions_matrix self)
         (function_names self) (Z.of_nat next_state)).

(** The factor of line 90, the binary64 value of the literal [0.2]. *)
Definition self_transition_factor : float := 0x1.999999999999ap-3%float.

(** Lines 90-94: what is done to the drawn [row] of state [i]. *)
Definition normalize_row (i : Z) (row : list float) : outcome (list float) :=
  obind (py_index row i) (fun d =>
  obind (py_setitem row i (PrimFloat.mul d self_transition_factor)) (fun row =>
  let row_sum := py_sum row in
  comprehension (fun p => py_truediv p row_sum) row)).

(** Lines 86-96: the body of the loop that builds the matrix, for the
    state [i].  [range(num_states)] has [Z.to_nat num_states] elements. *)
Definition transition_row (num_states : Z) (i : Z)
  (transition_matrix : list (list float)) : M (list (list float)) :=
  row <- repeat_call (Z.to_nat num_states) random_random ;;
  row <- lift (normalize_row i row) ;;
  ret (transition_matrix ++ [row]).

(** Lines 83-96: the random transition matrix. *)
Definition build_transition_matrix (num_states : Z) : M (list (list float)) :=
  for_each (py_range 0 num_states) (transition_row num_states) [].

(** Lines 144-146: the body of the loop that adds a variation. *)
Definition add_variation (i : Z) (acc : list operator * list string)
  : M (list operator * list string) :=
  c <- random_randint 1 5 ;;
  ret (fst acc ++ [variation c], snd acc ++ [variation_name c]).

(** Lines 133-146: the functions of the states and their names. *)
Definition select_operations (num_states : Z) : M (list operator * list string) :=
  let pool_size := Z.of_nat (length operation_pool) in
  selected_operations <-
    random_sample operation_pool (Z.min num_states pool_size) ;;
  let functions_matrix := map fst selected_operations in
  let function_names := map snd selected_operations in
  if pool_size <? num_states then
    for_each (py_range 0 (num_states - pool_size)) add_variation
      (functions_matrix, function_names)
  else ret (functions_matrix, function_names).

(** Lines 165-170: the body of the generation loop.  The arguments of the
    call are evaluated from the left: [sequence[-1]] before
    [sequence[-2]]. *)
Definition markov_step (sequence : loc) (step : Z) (markov_chain : MarkovChain)
  : M MarkovChain :=
  function <- lift (py_index (functions_matrix markov_chain) (state markov_chain)) ;;
  function_name <- lift (py_index (function_names markov_chain) (state markov_chain)) ;;
  values <- load sequence ;;
  last <- lift (py_index values (-1)) ;;
  before_last <- lift (py_index values (-2)) ;;
  value <- lift (function last before_last) ;;
  _ <- list_append sequence value ;;
  update_state markov_chain.

(** [markov(initial_values, steps, initial_state, num_states)], lines
    71-174.  The result is the address of the produced sequence. *)
Definition markov (initial_values : loc) (steps initial_state num_states : Z)
  : M loc :=
  transition_matrix <- build_transition_matrix num_states ;;
  selected <- select_operations num_states ;;
  let markov_chain :=
    mkMarkovChain transition_matrix (fst selected) (snd selected) initial_state in
  sequence <- list_copy initial_values ;;
  _ <- for_each (py_range 1 steps) (markov_step sequence) markov_chain ;;
  ret sequence.

(** A caller, as in the main block of the file: the seed list is the only
    object of the store, at address 0, and [script] is what the random
    source will answer. *)
Definition caller_world (initial_values : list Z) (script : list draw) : world :=
  mkWorld [initial_values] script 0.

(** The list that a returned address denotes. *)
Definition deref (w : world) (l : loc) : option (list Z) := nth_error (heap w) l.

(** What the caller sees: the outcome, with the returned list read out of
    the store. *)
Definition observe (r : outcome loc * world) : outcome (option (list Z)) :=
  match r with
  | (Ok l, w) => Ok (deref w l)
  | (Raise e, _) => Raise e
  end.

(** ** Notions used in the statements *)

(** An operator that never raises. *)
Definition total (f : operator) : Prop := forall x y, exists v, f x y = Ok v.


(** The calls into [random] that [markov] makes before its loop:
    [num_states] draws for each row, one sample, one integer for each
    variation. *)
Definition setup_calls (num_states : Z) : nat :=
  (Z.to_nat num_states * Z.to_nat num_states + 1 + Z.to_nat (num_states - 16))%nat.

Ltac case_outcome :=
  match goal with
  | |- context [match ?o with Ok _ => _ | Raise _ => _ end] =>
      let E := fresh "E" in destruct o eqn:E
  | |- context [match ?o with Some _ => _ | None => _ end] =>
      let E := fresh "E" in destruct o eqn:E
  | |- context [let (_, _) := ?p in _] =>
      let E := fresh "E" in destruct p eqn:E
  end.

(** ** The generators of [src/sequences/basic.py]

    The numbers of a sequence are Python integers here, as in the table
    [AVAILABLE_SEQUENCES]; the generators that go through floats
    ([square_sequence], [prime_sequence]) are not modelled.  No generator
    reads [extra_params], which is left out of the state. *)

(** [current_value]: one number, or the list of the numbers so far. *)
Inductive value : Type :=
| Scalar (x : Z)
| History (values : list Z).

(** [class SequenceState]. *)
Record SequenceState : Type := mkSequenceState {
  current_value : value;
  step : Z
}.

(** The test of lines 41-44, 85-88 and 166-169: the last number of a
    list, or the number itself.  ([int] of an integer is the integer.) *)
Definition current_number (state : SequenceState) : outcome Z :=
  match current_value state with
  | History values => py_index values (-1)
  | Scalar x => Ok x
  end.

(** [count_by_step], lines 30-46. *)
Definition count_by_step (state : SequenceState) (num_steps : Z) : outcome (list Z) :=
  obind (current_number state) (fun current =>
    Ok (map (fun i => current + (i + 1) * step state) (py_range 0 num_steps))).

(** The loop shared by lines 66-69, 202-205 and 264-267: [n] times, the
    next value is computed from [values] and appended to both lists. *)
Fixpoint recurrence_loop (next : list Z -> outcome Z) (n : nat)
  (values next_values : list Z) : outcome (list Z) :=
  match n with
  | O => Ok next_values
  | S n' =>
      obind (next values) (fun next_value =>
        recurrence_loop next n' (values ++ [next_value])
          (next_values ++ [next_value]))
  end.

(** [values[-1] + values[-2]], line 67. *)
Definition fibonacci_next (values : list Z) : outcome Z :=
  obind (py_index values (-1)) (fun a =>
  obind (py_index values (-2)) (fun b => Ok (a + b))).

(** [fibonacci], lines 49-71. *)
Definition fibonacci (state : SequenceState) (num_steps : Z) : outcome (list Z) :=
  match current_value state with
  | History values =>
      if (length values <? 2)%nat then Raise ValueError
      else recurrence_loop fibonacci_next (Z.to_nat num_steps) values []
  | Scalar _ => Raise ValueError
  end.

(** [values[-1] + values[-2] + values[-3]], line 203. *)
Definition tribonacci_next (values : list Z) : outcome Z :=
  obind (py_index values (-1)) (fun a =>
  obind (py_index values (-2)) (fun b =>
  obind (py_index values (-3)) (fun c => Ok (a + b + c)))).

(** [tribonacci], lines 185-207. *)
Definition tribonacci (state : SequenceState) (num_steps : Z) : outcome (list Z) :=
  match current_value state with
  | History values =>
      if (length values <? 3)%nat then Raise ValueError
      else recurrence_loop tribonacci_next (Z.to_nat num_steps) values []
  | Scalar _ => Raise ValueError
  end.

(** [2 * values[-1] - values[-2] + state.step], line 265. *)
Definition custom_next (state : SequenceState) (values : list Z) : outcome Z :=
  obind (py_index values (-1)) (fun a =>
  obind (py_index values (-2)) (fun b => Ok (2 * a - b + step state))).

(** [custom_recurrence], lines 245-269. *)
Definition custom_recurrence (state : SequenceState) (num_steps : Z)
  : outcome (list Z) :=
  match current_value state with
  | History values =>
      if (length values <? 2)%nat then Raise ValueError
      else recurrence_loop (custom_next state) (Z.to_nat num_steps) values []
  | Scalar _ => Raise ValueError
  end.

(** [geometric_sequence], lines 74-91. *)
Definition geometric_sequence (state : SequenceState) (num_steps : Z)
  : outcome (list Z) :=
  obind (current_number state) (fun current =>
    let ratio := if negb (step state =? 0) then step state else 2 in
    Ok (map (fun i => current * ratio ^ (i + 1)) (py_range 0 num_steps))).

(** The loop of lines 172-180. *)
Fixpoint collatz_loop (n : nat) (current : Z) (sequence : list Z) : list Z :=
  match n with
  | O => sequence
  | S n' =>
      if current =? 1 then collatz_loop n' current (sequence ++ [1])
      else if current mod 2 =? 0 then
        let current := current / 2 in
        collatz_loop n' current (sequence ++ [current])
      else
        let current := 3 * current + 1 in
        collatz_loop n' current (sequence ++ [current])
  end.

(** [collatz_sequence], lines 153-182. *)
Definition collatz_sequence (state : SequenceState) (num_steps : Z)
  : outcome (list Z) :=
  obind (current_number state) (fun current =>
    Ok (collatz_loop (Z.to_nat num_steps) current [])).

(** Lines 376-383 of [run_sequence]: how the state takes up the values
    that a generator returned.  Nothing changes when there are none. *)
Definition take_up (state : SequenceState) (next_values : list Z)
  : outcome SequenceState :=
  match next_values with
  | [] => Ok state
  | _ :: _ =>
      match current_value state with
      | History values =>
          Ok (mkSequenceState (History (values ++ next_values)) (step state))
      | Scalar _ =>
          obind (py_index next_values (-1)) (fun last =>
            Ok (mkSequenceState (Scalar last) (step state)))
      end
  end.

(** A generator works in batches when asking for [m + n] values at once
    gives what the runner gets by asking for [m] values, taking them up
    into the state, and asking for [n] more. *)
Definition in_batches (generator : SequenceState -> Z -> outcome (list Z))
  (state : SequenceState) (m n : Z) : Prop :=
  generator state (m + n) =
    obind (generator state m) (fun out1 =>
    obind (take_up state out1) (fun state1 =>
    obind (generator state1 n) (fun out2 => Ok (out1 ++ out2)))).

(** ** Subscripts and list updates *)

Lemma py_position_in_range (n : nat) (i : Z) :
  - Z.of_nat n <= i < Z.of_nat n ->
  exists p, py_position n i = Some p /\ (p < n)%nat.
Proof.
  intros Hi. unfold py_position.
  destruct (Z.ltb_spec i 0) as [Hneg | Hpos].
  - replace ((0 <=? i + Z.of_nat n) && (i + Z.of_nat n <? Z.of_nat n)) with true.
    + exists (Z.to_nat (i + Z.of_nat n)). split; [reflexivity | lia].
    + symmetry. apply andb_true_iff. split; [apply Z.leb_le | apply Z.ltb_lt]; lia.
  - replace ((0 <=? i) && (i <? Z.of_nat n)) with true.
    + exists (Z.to_nat i). split; [reflexivity | lia].
    + symmetry. apply andb_true_iff. split; [apply Z.leb_le | apply Z.ltb_lt]; lia.
Qed.

Lemma py_position_out_of_range (n : nat) (i : Z) :
  i < - Z.of_nat n \/ Z.of_nat n <= i -> py_position n i = None.
Proof.
  intros Hi. unfold py_position.
  destruct (Z.ltb_spec i 0) as [Hneg | Hpos].
  - destruct (Z.leb_spec 0 (i + Z.of_nat n)); simpl; [|reflexivity].
    exfalso; lia.
  - destruct (Z.ltb_spec i (Z.of_nat n)); [exfalso; lia|].
    now rewrite andb_false_r.
Qed.

Lemma py_index_in_range {A : Type} (l : list A) (i : Z) :
  - Z.of_nat (length l) <= i < Z.of_nat (length l) ->
  exists x, py_index l i = Ok x /\ In x l.
Proof.
  intros Hi. unfold py_index.
  destruct (py_position_in_range _ _ Hi) as (p & -> & Hp).
  destruct (nth_error l p) as [x|] eqn:E.
  - exists x. split; [reflexivity | eapply nth_error_In; eassumption].
  - apply nth_error_None in E. lia.
Qed.

Lemma py_index_out_of_range {A : Type} (l : list A) (i : Z) :
  i < - Z.of_nat (length l) \/ Z.of_nat (length l) <= i ->
  py_index l i = Raise IndexError.
Proof.
  intros Hi. unfold py_index. now rewrite py_position_out_of_range.
Qed.

Lemma py_index_last {A : Type} (l : list A) (a b : A) :
  py_index (l ++ [a; b]) (-1) = Ok b.
Proof.
  unfold py_index, py_position. rewrite length_app. simpl length.
  replace (-1 <? 0) with true by reflexivity.
  replace ((0 <=? -1 + Z.of_nat (length l + 2)) &&
           (-1 + Z.of_nat (length l + 2) <? Z.of_nat (length l + 2))) with true.
  - replace (Z.to_nat (-1 + Z.of_nat (length l + 2))) with (length l + 1)%nat by lia.
    rewrite nth_error_app2 by lia.
    replace (length l + 1 - length l)%nat with 1%nat by lia. reflexivity.
  - symmetry. apply andb_true_iff. split; [apply Z.leb_le | apply Z.ltb_lt]; lia.
Qed.

Lemma py_index_before_last {A : Type} (l : list A) (a b : A) :
  py_index (l ++ [a; b]) (-2) = Ok a.
Proof.
  unfold py_index, py_position. rewrite length_app. simpl length.
  replace (-2 <? 0) with true by reflexivity.
  replace ((0 <=? -2 + Z.of_nat (length l + 2)) &&
           (-2 + Z.of_nat (length l + 2) <? Z.of_nat (length l + 2))) with true.
  - replace (Z.to_nat (-2 + Z.of_nat (length l + 2))) with (length l + 0)%nat by lia.
    rewrite nth_error_app2 by lia.
    replace (length l + 0 - length l)%nat with 0%nat by lia. reflexivity.
  - symmetry. apply andb_true_iff. split; [apply Z.leb_le | apply Z.ltb_lt]; lia.
Qed.

(** A list of two or more elements ends in two elements. *)
Lemma last_two {A : Type} (l : list A) :
  (2 <= length l)%nat -> exists pre a b, l = pre ++ [a; b].
Proof.
  intros Hl.
  destruct (exists_last (l := l)) as (l1 & b & ->).
  { intros ->. simpl in Hl. lia. }
  rewrite length_app in Hl. simpl in Hl.
  destruct (exists_last (l := l1)) as (pre & a & ->).
  { intros ->. simpl in Hl. lia. }
  exists pre, a, b. now rewrite <- app_assoc.
Qed.

Lemma list_set_length {A : Type} (l : list A) (p : nat) (x : A) :
  length (list_set l p x) = length l.
Proof.
  revert p. induction l as [|h t IH]; intros [|p]; simpl; auto.
Qed.

Lemma list_set_same {A : Type} (l : list A) (p : nat) (x : A) :
  (p < length l)%nat -> nth_error (list_set l p x) p = Some x.
Proof.
  revert p. induction l as [|h t IH]; intros [|p] Hp; simpl in *; try lia; auto.
  apply IH. lia.
Qed.

Lemma list_set_other {A : Type} (l : list A) (p q : nat) (x : A) :
  p <> q -> nth_error (list_set l p x) q = nth_error l q.
Proof.
  revert p q. induction l as [|h t IH]; intros [|p] [|q] Hpq; simpl;
    try congruence; auto.
Qed.

Lemma py_range_length (a b : Z) : length (py_range a b) = Z.to_nat (b - a).
Proof. unfold py_range. now rewrite length_map, length_seq. Qed.

Lemma comprehension_length {A B : Type} (f : A -> outcome B) (l : list A) (r : list B) :
  comprehension f l = Ok r -> length r = length l.
Proof.
  revert r. induction l as [|p t IH]; simpl; intros r H.
  - now injection H as <-.
  - destruct (f p); [|discriminate]. simpl in H.
    destruct (comprehension f t) as [ys|]; [|discriminate]. simpl in H.
    injection H as <-. simpl. f_equal. now apply IH.
Qed.

(** ** The random source *)

Lemma next_draw_heap (w : world) : heap (snd (next_draw w)) = heap w.
Proof. unfold next_draw. now destruct (tape w). Qed.

Lemma next_draw_calls (w : world) : calls (snd (next_draw w)) = S (calls w).
Proof. unfold next_draw. now destruct (tape w). Qed.

Lemma random_random_ok (w : world) :
  exists u, random_random w = (Ok u, snd (next_draw w)).
Proof.
  unfold random_random. destruct (next_draw w) as [[[u| | |]|] w']; simpl; eauto.
Qed.

Lemma random_randint_ok (a b : Z) (w : world) :
  a <= b ->
  exists c, a <= c <= b /\ random_randint a b w = (Ok c, snd (next_draw w)).
Proof.
  intros Hab. unfold random_randint.
  destruct (Z.ltb_spec b a); [lia|].
  destruct (next_draw w) as [[[u|picks|c|j]|] w']; simpl;
    try (exists a; split; [lia | reflexivity]).
  destruct ((a <=? c) && (c <=? b)) eqn:E.
  - apply andb_true_iff in E. destruct E as [E1 E2].
    apply Z.leb_le in E1. apply Z.leb_le in E2.
    exists c. split; [lia | reflexivity].
  - exists a. split; [lia | reflexivity].
Qed.

Lemma random_choices_ok (weights : list float) (w : world) :
  weights <> [] ->
  exists j, (j < length weights)%nat /\
            random_choices weights w = (Ok j, snd (next_draw w)).
Proof.
  intros Hne. unfold random_choices.
  destruct weights as [|p t]; [congruence|].
  destruct (next_draw w) as [[[u|picks|c|j]|] w']; simpl snd;
    try (exists O; split; [simpl; lia | reflexivity]).
  destruct (Nat.ltb_spec j (length (p :: t))).
  - exists j. split; [assumption | reflexivity].
  - exists O. split; [simpl; lia | reflexivity].
Qed.

Lemma distinct_NoDup (l : list nat) : distinct l = true -> NoDup l.
Proof.
  induction l as [|p t IH]; simpl; intros H; [constructor|].
  apply andb_true_iff in H. destruct H as [H1 H2].
  constructor; [|auto].
  intros Hin. apply negb_true_iff in H1.
  assert (existsb (Nat.eqb p) t = true) as E.
  { apply existsb_exists. exists p. split; [assumption | apply Nat.eqb_refl]. }
  congruence.
Qed.

Lemma legal_picks_spec (n k : nat) (picks : list nat) :
  legal_picks n k picks = true ->
  length picks = k /\ Forall (fun p => (p < n)%nat) picks /\ NoDup picks.
Proof.
  unfold legal_picks. intros H.
  apply andb_true_iff in H. destruct H as [H H3].
  apply andb_true_iff in H. destruct H as [H1 H2].
  split; [now apply Nat.eqb_eq|]. split; [|now apply distinct_NoDup].
  apply Forall_forall. intros p Hp.
  rewrite forallb_forall in H2. apply Nat.ltb_lt. auto.
Qed.

Lemma distinct_seq (k a : nat) : distinct (seq a k) = true.
Proof.
  revert a. induction k as [|k IH]; intros a; simpl; [reflexivity|].
  rewrite IH, andb_true_r. apply negb_true_iff.
  destruct (existsb (Nat.eqb a) (seq (S a) k)) eqn:E; [|reflexivity].
  apply existsb_exists in E. destruct E as (x & Hx & Hax).
  apply in_seq in Hx. apply Nat.eqb_eq in Hax. lia.
Qed.

Lemma legal_picks_seq (n k : nat) : (k <= n)%nat -> legal_picks n k (seq 0 k) = true.
Proof.
  intros Hk. unfold legal_picks.
  rewrite length_seq, Nat.eqb_refl, distinct_seq, andb_true_r. simpl.
  apply forallb_forall. intros p Hp. apply in_seq in Hp. apply Nat.ltb_lt. lia.
Qed.

Lemma random_sample_ok {A : Type} (population : list A) (k : Z) (w : world) :
  0 <= k <= Z.of_nat (length population) ->
  exists picks,
    legal_picks (length population) (Z.to_nat k) picks = true /\
    random_sample population k w = (Ok (take_picks population picks), snd (next_draw w)).
Proof.
  intros Hk. unfold random_sample.
  destruct (Z.ltb_spec k 0); [lia|].
  destruct (Z.ltb_spec (Z.of_nat (length population)) k); [lia|]. simpl.
  assert (legal_picks (length population) (Z.to_nat k) (seq 0 (Z.to_nat k)) = true)
    as Hdefault by (apply legal_picks_seq; lia).
  destruct (next_draw w) as [[[u|picks|c|j]|] w']; simpl snd;
    try (eexists; split; [exact Hdefault | reflexivity]).
  destruct (legal_picks (length population) (Z.to_nat k) picks) eqn:E.
  - exists picks. split; [assumption | reflexivity].
  - eexists; split; [exact Hdefault | reflexivity].
Qed.

Lemma random_sample_negative {A : Type} (population : list A) (k : Z) (w : world) :
  k < 0 -> random_sample population k w = (Raise ValueError, w).
Proof.
  intros Hk. unfold random_sample.
  destruct (Z.ltb_spec k 0); [reflexivity | lia].
Qed.

Lemma take_picks_length {A : Type} (population : list A) (picks : list nat) :
  Forall (fun p => (p < length population)%nat) picks ->
  length (take_picks population picks) = length picks.
Proof.
  induction 1 as [|p t Hp _ IH]; [reflexivity|].
  unfold take_picks in *. simpl. rewrite length_app, IH.
  destruct (nth_error population p) eqn:E; [reflexivity|].
  apply nth_error_None in E. lia.
Qed.

Lemma take_picks_In {A : Type} (population : list A) (picks : list nat) (x : A) :
  In x (take_picks population picks) -> In x population.
Proof.
  unfold take_picks. intros H. apply in_flat_map in H.
  destruct H as (p & _ & Hx).
  destruct (nth_error population p) eqn:E; [|contradiction].
  destruct Hx as [<-|[]]. eapply nth_error_In; eassumption.
Qed.

(** ** Loops *)

Lemma for_each_app {A S : Type} (xs ys : list A) (body : A -> S -> M S)
      (acc acc' : S) (w w' : world) :
  for_each xs body acc w = (Ok acc', w') ->
  for_each (xs ++ ys) body acc w = for_each ys body acc' w'.
Proof.
  revert acc w. induction xs as [|x xs IH]; simpl; intros acc w H.
  - unfold ret in H. now injection H as -> ->.
  - unfold bind in *. destruct (body x acc w) as [[a|e] w1]; [|discriminate].
    now apply IH.
Qed.

Lemma map_seq_offset {B : Type} (f : nat -> B) (s n : nat) :
  map f (seq s n) = map (fun k => f (s + k)%nat) (seq 0 n).
Proof.
  revert s. induction n as [|n IH]; intros s; simpl; [reflexivity|].
  rewrite Nat.add_0_r. f_equal.
  rewrite IH, <- seq_shift, map_map.
  apply map_ext. intros k. f_equal. lia.
Qed.

Lemma py_range_split (a i b : Z) :
  a <= i < b -> py_range a b = py_range a i ++ i :: py_range (i + 1) b.
Proof.
  intros Hi. unfold py_range.
  replace (Z.to_nat (b - a)) with (Z.to_nat (i - a) + S (Z.to_nat (b - (i + 1))))%nat by lia.
  rewrite seq_app, map_app. f_equal.
  rewrite map_seq_offset. simpl. f_equal; [lia|].
  rewrite <- seq_shift, map_map.
  apply map_ext. intros k. lia.
Qed.

(** ** The transition matrix *)

Lemma draw_row_ok (n : nat) (w : world) :
  exists row w',
    repeat_call n random_random w = (Ok row, w') /\
    length row = n /\ heap w' = heap w /\ calls w' = (calls w + n)%nat.
Proof.
  revert w. induction n as [|n IH]; intros w; simpl.
  - exists [], w. unfold ret. repeat split; lia.
  - destruct (random_random_ok w) as (u & Hu).
    destruct (IH (snd (next_draw w))) as (row & w' & Hrow & Hlen & Hheap & Hcalls).
    exists (u :: row), w'. unfold bind. rewrite Hu, Hrow. unfold ret.
    rewrite Hheap, Hcalls, next_draw_heap, next_draw_calls. simpl.
    repeat split; lia.
Qed.

Lemma normalize_row_length (i : Z) (row r : list float) :
  normalize_row i row = Ok r -> length r = length row.
Proof.
  unfold normalize_row. destruct (py_index row i) as [d|]; [|discriminate]. simpl.
  unfold py_setitem. destruct (py_position (length row) i) as [p|]; [|discriminate].
  simpl. intros H. apply comprehension_length in H.
  now rewrite H, list_set_length.
Qed.

Lemma transition_row_heap (n i : Z) (tm : list (list float)) (w : world) :
  heap (snd (transition_row n i tm w)) = heap w.
Proof.
  unfold transition_row, bind, lift, ret.
  destruct (draw_row_ok (Z.to_nat n) w) as (row & w' & -> & _ & Hheap & _).
  destruct (normalize_row i row); assumption.
Qed.

Lemma transition_row_Ok (n i : Z) (tm tm' : list (list float)) (w w' : world) :
  transition_row n i tm w = (Ok tm', w') ->
  exists row, tm' = tm ++ [row] /\ length row = Z.to_nat n /\
              calls w' = (calls w + Z.to_nat n)%nat.
Proof.
  unfold transition_row, bind, lift, ret.
  destruct (draw_row_ok (Z.to_nat n) w) as (row & w1 & -> & Hlen & _ & Hcalls).
  destruct (normalize_row i row) as [r|] eqn:E; [|discriminate].
  intros H. injection H as <- <-.
  exists r. apply normalize_row_length in E. repeat split; congruence.
Qed.

Lemma build_rows_heap (n : Z) (xs : list Z) (tm : list (list float)) (w : world) :
  heap (snd (for_each xs (transition_row n) tm w)) = heap w.
Proof.
  revert tm w. induction xs as [|i xs IH]; intros tm w; simpl; [reflexivity|].
  unfold bind. pose proof (transition_row_heap n i tm w) as Hrow.
  destruct (transition_row n i tm w) as [[tm1|e] w1]; simpl in *; [|assumption].
  now rewrite IH.
Qed.

Lemma build_rows_Ok (n : Z) (xs : list Z) (tm tm' : list (list float)) (w w' : world) :
  for_each xs (transition_row n) tm w = (Ok tm', w') ->
  exists rows,
    tm' = tm ++ rows /\ length rows = length xs /\
    Forall (fun row => length row = Z.to_nat n) rows /\
    calls w' = (calls w + length xs * Z.to_nat n)%nat.
Proof.
  revert tm w. induction xs as [|i xs IH]; intros tm w; simpl.
  - unfold ret. intros H. injection H as <- <-.
    exists []. rewrite app_nil_r. repeat split; auto.
  - unfold bind. destruct (transition_row n i tm w) as [[tm1|e] w1] eqn:E; [|discriminate].
    intros H. apply transition_row_Ok in E. destruct E as (row & -> & Hlen & Hcalls).
    apply IH in H. destruct H as (rows & -> & Hrows & Hall & Hcalls').
    exists (row :: rows). rewrite <- app_assoc. simpl.
    repeat split; auto; lia.
Qed.

Lemma build_transition_matrix_heap (n : Z) (w : world) :
  heap (snd (build_transition_matrix n w)) = heap w.
Proof. apply build_rows_heap. Qed.

Lemma build_transition_matrix_Ok (n : Z) (tm : list (list float)) (w w' : world) :
  build_transition_matrix n w = (Ok tm, w') ->
  length tm = Z.to_nat n /\
  Forall (fun row => length row = Z.to_nat n) tm /\
  calls w' = (calls w + Z.to_nat n * Z.to_nat n)%nat.
Proof.
  intros H. apply build_rows_Ok in H. destruct H as (rows & -> & Hlen & Hall & Hcalls).
  rewrite py_range_length in *. simpl. replace (n - 0) with n in * by lia.
  repeat split; auto.
Qed.

(** The rows of zeros. *)

Lemma py_sum_zeros (n : nat) : py_sum (repeat 0%float n) = 0%float.
Proof.
  unfold py_sum. induction n as [|n IH]; simpl; [reflexivity|].
  exact IH.
Qed.

Lemma list_set_repeat {A : Type} (x : A) (n p : nat) :
  list_set (repeat x n) p x = repeat x n.
Proof.
  revert p. induction n as [|n IH]; intros [|p]; simpl; auto.
  now rewrite IH.
Qed.

Lemma normalize_row_zeros (n : nat) (i : Z) :
  - Z.of_nat n <= i < Z.of_nat n ->
  normalize_row i (repeat 0%float n) = Raise ZeroDivisionError.
Proof.
  intros Hi. unfold normalize_row.
  assert (length (repeat 0%float n) = n) as Hlen by apply repeat_length.
  destruct (py_index_in_range (repeat 0%float n) i) as (d & -> & Hd); [lia|].
  apply repeat_spec in Hd. subst d. simpl.
  unfold py_setitem. rewrite Hlen.
  destruct (py_position_in_range n i Hi) as (p & -> & Hp). simpl.
  replace (PrimFloat.mul 0 self_transition_factor) with 0%float by reflexivity.
  rewrite list_set_repeat, py_sum_zeros.
  destruct n as [|n]; [lia|]. reflexivity.
Qed.

(** ** The operators *)

Lemma py_floordiv_guarded (a b : Z) :
  py_floordiv a (if negb (b =? 0) then b else 1) = Ok (a / (if b =? 0 then 1 else b)).
Proof.
  unfold py_floordiv. destruct (Z.eqb_spec b 0) as [->|Hb]; simpl; [reflexivity|].
  destruct (Z.eqb_spec b 0); [contradiction | reflexivity].
Qed.

Lemma py_mod_2 (a : Z) : py_mod a 2 = Ok (a mod 2).
Proof. reflexivity. Qed.

Lemma operation_pool_total : Forall (fun e => total (fst e)) operation_pool.
Proof.
  unfold operation_pool.
  repeat (apply Forall_cons;
          [intros x y; cbn [fst];
           first [ solve [eexists; reflexivity]
                 | solve [rewrite py_floordiv_guarded; eexists; reflexivity]
                 | solve [rewrite py_mod_2; cbn [obind];
                          destruct (_ =? 0); eexists; reflexivity] ]
          |]).
  apply Forall_nil.
Qed.

Lemma variation_total (c : Z) : total (variation c).
Proof. intros x y. unfold variation. eauto. Qed.

Lemma variations_ok (xs : list Z) (acc : list operator * list string) (w : world) :
  exists cs w',
    for_each xs add_variation acc w =
      (Ok (fst acc ++ map variation cs, snd acc ++ map variation_name cs), w') /\
    length cs = length xs /\ Forall (fun c => 1 <= c <= 5) cs /\
    heap w' = heap w /\ calls w' = (calls w + length xs)%nat.
Proof.
  revert acc w. induction xs as [|i xs IH]; intros acc w; simpl.
  - exists [], w. unfold ret. simpl. rewrite !app_nil_r.
    destruct acc. repeat split; auto.
  - unfold add_variation at 1. unfold bind at 1 2.
    destruct (random_randint_ok 1 5 w) as (c & Hc & ->); [lia|].
    unfold ret.
    destruct (IH (fst acc ++ [variation c], snd acc ++ [variation_name c])
                 (snd (next_draw w))) as (cs & w' & -> & Hlen & Hall & Hheap & Hcalls).
    exists (c :: cs), w'. simpl. rewrite <- !app_assoc. simpl.
    rewrite Hheap, Hcalls, next_draw_heap, next_draw_calls.
    repeat split; auto; lia.
Qed.

Lemma select_operations_ok (n : Z) (w : world) :
  0 <= n ->
  exists picks cs w',
    select_operations n w =
      (Ok (map fst (take_picks operation_pool picks) ++ map variation cs,
           map snd (take_picks operation_pool picks) ++ map variation_name cs), w') /\
    legal_picks 16 (Z.to_nat (Z.min n 16)) picks = true /\
    length cs = Z.to_nat (n - 16) /\ Forall (fun c => 1 <= c <= 5) cs /\
    heap w' = heap w /\ calls w' = (calls w + 1 + Z.to_nat (n - 16))%nat.
Proof.
  intros Hn. unfold select_operations.
  change (Z.of_nat (length operation_pool)) with 16.
  unfold bind at 1.
  destruct (random_sample_ok operation_pool (Z.min n 16) w) as (picks & Hpicks & ->).
  { change (Z.of_nat (length operation_pool)) with 16. lia. }
  change (length operation_pool) with 16%nat in Hpicks.
  destruct (Z.ltb_spec 16 n) as [Hbig | Hsmall].
  - destruct (variations_ok (py_range 0 (n - 16))
                (map fst (take_picks operation_pool picks),
                 map snd (take_picks operation_pool picks))
                (snd (next_draw w))) as (cs & w' & -> & Hlen & Hall & Hheap & Hcalls).
    exists picks, cs, w'. rewrite py_range_length in *.
    replace (n - 16 - 0) with (n - 16) in * by lia.
    rewrite Hheap, Hcalls, next_draw_heap, next_draw_calls.
    repeat split; auto; lia.
  - exists picks, [], (snd (next_draw w)). unfold ret. simpl map.
    rewrite !app_nil_r, next_draw_heap, next_draw_calls.
    repeat split; auto; try (simpl; lia).
Qed.

Lemma select_operations_negative (n : Z) (w : world) :
  n < 0 -> select_operations n w = (Raise ValueError, w).
Proof.
  intros Hn. unfold select_operations, bind.
  rewrite random_sample_negative; [reflexivity | lia].
Qed.

Lemma select_operations_heap (n : Z) (w : world) :
  heap (snd (select_operations n w)) = heap w.
Proof.
  destruct (Z.lt_ge_cases n 0) as [Hn | Hn].
  - now rewrite select_operations_negative.
  - destruct (select_operations_ok n w Hn) as (picks & cs & w' & -> & _ & _ & _ & H & _).
    exact H.
Qed.

(** What [select_operations] returns for [num_states >= 0]: as many
    functions and names as there are states, and no function raises. *)
Lemma select_operations_shape (n : Z) (w : world) :
  0 <= n ->
  exists fs names w',
    select_operations n w = (Ok (fs, names), w') /\
    length fs = Z.to_nat n /\ length names = Z.to_nat n /\
    Forall total fs /\
    heap w' = heap w /\ calls w' = (calls w + 1 + Z.to_nat (n - 16))%nat.
Proof.
  intros Hn.
  destruct (select_operations_ok n w Hn)
    as (picks & cs & w' & Hsel & Hpicks & Hcs & Hall & Hheap & Hcalls).
  apply legal_picks_spec in Hpicks. destruct Hpicks as (Hlen & Hrange & _).
  eexists _, _, w'. split; [exact Hsel|].
  rewrite !length_app, !length_map, take_picks_length by exact Hrange.
  repeat split; auto; try lia.
  apply Forall_app. split.
  - apply Forall_forall. intros f Hf. apply in_map_iff in Hf.
    destruct Hf as (e & <- & He). apply take_picks_In in He.
    pose proof operation_pool_total as Hpool.
    rewrite Forall_forall in Hpool. now apply Hpool.
  - apply Forall_forall. intros f Hf. apply in_map_iff in Hf.
    destruct Hf as (c & <- & _). apply variation_total.
Qed.

(** ** The generation loop *)

Lemma random_choices_heap (weights : list float) (w : world) :
  heap (snd (random_choices weights w)) = heap w.
Proof.
  unfold random_choices. destruct weights as [|p t]; [reflexivity|].
  pose proof (next_draw_heap w) as H.
  destruct (next_draw w) as [[[u|picks|c|j]|] w']; simpl in *; try assumption.
  destruct (j <? S (length t))%nat; assumption.
Qed.

Lemma update_state_heap (mc : MarkovChain) (w : world) :
  heap (snd (update_state mc w)) = heap w.
Proof.
  unfold update_state, bind, lift, ret.
  destruct (py_index (transition_matrix mc) (state mc)) as [row|]; [|reflexivity].
  pose proof (random_choices_heap row w) as H.
  destruct (random_choices row w) as [[j|e] w']; assumption.
Qed.

(** A step leaves every list object other than the sequence as it is,
    however the step ends. *)
Lemma markov_step_frame (sq : loc) (step : Z) (mc : MarkovChain) (w : world) (l : loc) :
  l <> sq ->
  nth_error (heap (snd (markov_step sq step mc w))) l = nth_error (heap w) l.
Proof.
  intros Hl. unfold markov_step, bind, lift, load, list_append.
  repeat (case_outcome; simpl; try reflexivity).
  match goal with
  | |- context [update_state ?c ?v] =>
      pose proof (update_state_heap c v) as H;
      destruct (update_state c v) as [[c'|e] w']
  end; simpl in *; rewrite H; apply list_set_other; congruence.
Qed.

Lemma generation_frame (sq : loc) (xs : list Z) (mc : MarkovChain) (w : world) (l : loc) :
  l <> sq ->
  nth_error (heap (snd (for_each xs (markov_step sq) mc w))) l = nth_error (heap w) l.
Proof.
  intros Hl. revert mc w. induction xs as [|x xs IH]; intros mc w; simpl; [reflexivity|].
  unfold bind. pose proof (markov_step_frame sq x mc w l Hl) as Hstep.
  destruct (markov_step sq x mc w) as [[mc'|e] w']; simpl in *; [|assumption].
  now rewrite IH.
Qed.

(** A step that finds its function, its row and two values appends the
    function's value and moves to a state of the row. *)
Lemma markov_step_ok (sq : loc) (step : Z) (mc : MarkovChain) (w : world)
      (pre : list Z) (a b v : Z) (f : operator) (name : string) (row : list float) :
  nth_error (heap w) sq = Some (pre ++ [a; b]) ->
  py_index (functions_matrix mc) (state mc) = Ok f ->
  py_index (function_names mc) (state mc) = Ok name ->
  py_index (transition_matrix mc) (state mc) = Ok row ->
  row <> [] ->
  f b a = Ok v ->
  exists j,
    (j < length row)%nat /\
    markov_step sq step mc w =
      (Ok (mkMarkovChain (transition_matrix mc) (functions_matrix mc)
             (function_names mc) (Z.of_nat j)),
       snd (next_draw (mkWorld (list_set (heap w) sq (pre ++ [a; b; v]))
                         (tape w) (calls w)))).
Proof.
  intros Hsq Hf Hname Hrow Hne Hv.
  unfold markov_step, update_state.
  unfold bind, lift, load, list_append, ret.
  rewrite Hf, Hname, Hsq, py_index_last, py_index_before_last, Hv, Hsq, Hrow.
  rewrite <- app_assoc. simpl app.
  destruct (random_choices_ok row
              (mkWorld (list_set (heap w) sq (pre ++ [a; b; v])) (tape w) (calls w)) Hne)
    as (j & Hj & ->).
  exists j. split; [assumption | reflexivity].
Qed.

(** A step on a sequence of fewer than two values raises before it
    appends anything. *)
Lemma markov_step_short (sq : loc) (step : Z) (mc : MarkovChain) (w : world)
      (vs : list Z) (f : operator) (name : string) :
  nth_error (heap w) sq = Some vs ->
  (length vs < 2)%nat ->
  py_index (functions_matrix mc) (state mc) = Ok f ->
  py_index (function_names mc) (state mc) = Ok name ->
  markov_step sq step mc w = (Raise IndexError, w).
Proof.
  intros Hsq Hlen Hf Hname.
  unfold markov_step, bind, lift, load. rewrite Hf, Hname, Hsq.
  destruct vs as [|x [|y t]]; simpl in Hlen; try lia; reflexivity.
Qed.



(** ** [markov] as a whole *)

(** [markov] from its loop on, once the matrix and the functions are
    known. *)
Lemma markov_unfold (l : loc) (init : list Z) (steps s n : Z) (w w1 w2 : world)
      (tm : list (list float)) (fs : list operator) (names : list string) :
  nth_error (heap w) l = Some init ->
  build_transition_matrix n w = (Ok tm, w1) ->
  select_operations n w1 = (Ok (fs, names), w2) ->
  markov l steps s n w =
    match for_each (py_range 1 steps) (markov_step (length (heap w)))
            (mkMarkovChain tm fs names s)
            (mkWorld (heap w ++ [init]) (tape w2) (calls w2)) with
    | (Ok _, w') => (Ok (length (heap w)), w')
    | (Raise e, w') => (Raise e, w')
    end.
Proof.
  intros Hl Hbuild Hsel.
  pose proof (build_transition_matrix_heap n w) as Hheap1.
  rewrite Hbuild in Hheap1. simpl in Hheap1.
  pose proof (select_operations_heap n w1) as Hheap2.
  rewrite Hsel in Hheap2. simpl in Hheap2.
  unfold markov, bind. rewrite Hbuild, Hsel. simpl fst; simpl snd.
  unfold list_copy. rewrite Hheap2, Hheap1, Hl. unfold ret.
  destruct (for_each _ _ _ _) as [[mc'|e] w']; reflexivity.
Qed.

(** A step of a chain with one state. *)
Lemma markov_step_single (sq : loc) (step : Z) (f : operator) (name : string)
      (row : list float) (w : world) (pre : list Z) (a b v : Z) :
  length row = 1%nat ->
  nth_error (heap w) sq = Some (pre ++ [a; b]) ->
  f b a = Ok v ->
  exists w',
    markov_step sq step (mkMarkovChain [row] [f] [name] 0) w
      = (Ok (mkMarkovChain [row] [f] [name] 0), w') /\
    nth_error (heap w') sq = Some (pre ++ [a; b; v]).
Proof.
  intros Hrow Hsq Hv.
  destruct (markov_step_ok sq step (mkMarkovChain [row] [f] [name] 0) w
              pre a b v f name row Hsq eq_refl eq_refl eq_refl)
    as (j & Hj & Hstep); [intros ->; discriminate | exact Hv |].
  simpl in Hstep. replace j with O in Hstep by lia.
  eexists. split; [exact Hstep|].
  rewrite next_draw_heap. simpl.
  apply list_set_same. apply nth_error_Some. congruence.
Qed.

(** What [markov] has done when its loop starts. *)
Lemma markov_setup (l : loc) (init : list Z) (s n : Z) (w w1 : world)
      (tm : list (list float)) :
  nth_error (heap w) l = Some init ->
  0 <= n ->
  build_transition_matrix n w = (Ok tm, w1) ->
  exists fs names w3,
    (forall steps,
        markov l steps s n w =
          match for_each (py_range 1 steps) (markov_step (length (heap w)))
                  (mkMarkovChain tm fs names s) w3 with
          | (Ok _, w') => (Ok (length (heap w)), w')
          | (Raise e, w') => (Raise e, w')
          end) /\
    length tm = Z.to_nat n /\
    Forall (fun row => length row = Z.to_nat n) tm /\
    length fs = Z.to_nat n /\ length names = Z.to_nat n /\ Forall total fs /\
    heap w3 = heap w ++ [init] /\
    calls w3 = (calls w + setup_calls n)%nat.
Proof.
  intros Hl Hn Hbuild.
  pose proof (build_transition_matrix_heap n w) as Hheap1.
  rewrite Hbuild in Hheap1. simpl in Hheap1.
  apply build_transition_matrix_Ok in Hbuild as Hshape.
  destruct Hshape as (Hrows & Hrow & Hcalls1).
  destruct (select_operations_shape n w1 Hn)
    as (fs & names & w2 & Hsel & Hfs & Hnames & Htotal & Hheap2 & Hcalls2).
  exists fs, names, (mkWorld (heap w2 ++ [init]) (tape w2) (calls w2)).
  split; [|repeat split; auto].
  - intros steps. unfold markov, bind. rewrite Hbuild, Hsel. simpl fst; simpl snd.
    unfold list_copy. rewrite Hheap2, Hheap1, Hl. unfold ret.
    destruct (for_each _ _ _ _) as [[mc'|e] w']; reflexivity.
  - simpl. congruence.
  - simpl. unfold setup_calls. lia.
Qed.

Lemma heap_snoc_last (h : list (list Z)) (v : list Z) :
  nth_error (h ++ [v]) (length h) = Some v.
Proof. rewrite nth_error_app2 by lia. now rewrite Nat.sub_diag. Qed.


(** A call with [steps <= 1] returns a copy of the seeds, whatever the
    seeds and the state are. *)
Lemma markov_no_step (l : loc) (init : list Z) (steps s n : Z) (w w1 : world)
      (tm : list (list float)) :
  nth_error (heap w) l = Some init ->
  0 <= n ->
  steps <= 1 ->
  build_transition_matrix n w = (Ok tm, w1) ->
  exists w',
    markov l steps s n w = (Ok (length (heap w)), w') /\
    nth_error (heap w') (length (heap w)) = Some init.
Proof.
  intros Hl Hn Hsteps Hbuild.
  destruct (markov_setup l init s n w w1 tm Hl Hn Hbuild)
    as (fs & names & w3 & Hrun & _ & _ & _ & _ & _ & Hheap & _).
  exists w3. rewrite Hrun. unfold py_range.
  replace (Z.to_nat (steps - 1)) with O by lia. simpl. unfold ret.
  split; [reflexivity|]. rewrite Hheap. apply heap_snoc_last.
Qed.

(** A call whose first step raises [IndexError] ends there: the matrix
    and the functions are drawn, the seeds are copied, nothing is
    appended. *)
Lemma markov_first_step_raises (l : loc) (init : list Z) (steps s n : Z) (w w1 : world)
      (tm : list (list float)) :
  nth_error (heap w) l = Some init ->
  0 <= n ->
  2 <= steps ->
  build_transition_matrix n w = (Ok tm, w1) ->
  (forall fs names w3,
      length fs = Z.to_nat n -> length names = Z.to_nat n ->
      nth_error (heap w3) (length (heap w)) = Some init ->
      markov_step (length (heap w)) 1 (mkMarkovChain tm fs names s) w3
        = (Raise IndexError, w3)) ->
  exists w',
    markov l steps s n w = (Raise IndexError, w') /\
    heap w' = heap w ++ [init] /\
    calls w' = (calls w + setup_calls n)%nat.
Proof.
  intros Hl Hn Hsteps Hbuild Hstep.
  destruct (markov_setup l init s n w w1 tm Hl Hn Hbuild)
    as (fs & names & w3 & Hrun & _ & _ & Hfs & Hnames & _ & Hheap & Hcalls).
  exists w3. rewrite Hrun.
  rewrite (py_range_split 1 1 steps) by lia.
  change (py_range 1 1) with (@nil Z). simpl app. simpl for_each.
  unfold bind. rewrite (Hstep fs names w3 Hfs Hnames).
  - repeat split; auto.
  - rewrite Hheap. apply heap_snoc_last.
Qed.

(** ** Examples of runs *)

(** The main block's seeds with one state whose function is [x + y]. *)
Example run_addition :
  observe (markov 0%nat 5 0 1
             (caller_world [2; 3] [Uniform 0x1p-2%float; Sample [0%nat]]))
  = Ok (Some [2; 3; 5; 8; 13; 21]).
Proof. vm_compute. reflexivity. Qed.

(** One state whose function is [x - y]: 3 - 2 = 1, 1 - 3 = -2,
    -2 - 1 = -3. *)
Example run_subtraction :
  observe (markov 0%nat 4 0 1
             (caller_world [2; 3] [Uniform 0x1p-2%float; Sample [1%nat]]))
  = Ok (Some [2; 3; 1; -2; -3]).
Proof. vm_compute. reflexivity. Qed.

(** Two states, [x - y] and [x // y], visited 0, 1, 0, 1: the last step
    divides by the guarded zero. *)
Example run_two_states :
  observe (markov 0%nat 5 0 2
             (caller_world [2; 3]
                [Uniform 0x1p-2%float; Uniform 0x1p-2%float;
                 Uniform 0x1p-2%float; Uniform 0x1p-2%float;
                 Sample [1%nat; 14%nat]; Choice 1; Choice 0; Choice 1]))
  = Ok (Some [2; 3; 1; 0; -1; -1]).
Proof. vm_compute. reflexivity. Qed.

(** ** The length of the sequence *)




(** ** The order of the arguments *)

(** C2: a step reads the function of the current state and appends its
    value at [(sequence[-1], sequence[-2])]: with the sequence ending in
    [a; b], the appended value is [function b a]. *)
Theorem markov_step_argument_order (sq : loc) (step : Z) (mc : MarkovChain)
        (w : world) (pre : list Z) (a b v : Z) (f : operator) (name : string)
        (row : list float) :
  deref w sq = Some (pre ++ [a; b]) ->
  py_index (functions_matrix mc) (state mc) = Ok f ->
  py_index (function_names mc) (state mc) = Ok name ->
  py_index (transition_matrix mc) (state mc) = Ok row ->
  row <> [] ->
  f b a = Ok v ->
  exists mc' w',
    markov_step sq step mc w = (Ok mc', w') /\
    deref w' sq = Some (pre ++ [a; b] ++ [v]).
Proof.
  unfold deref. intros Hsq Hf Hname Hrow Hne Hv.
  destruct (markov_step_ok sq step mc w pre a b v f name row Hsq Hf Hname Hrow Hne Hv)
    as (j & _ & Hstep).
  eexists _, _. split; [exact Hstep|].
  rewrite next_draw_heap. simpl.
  apply list_set_same. apply nth_error_Some. congruence.
Qed.

(** The witness: the function is [x - y] and the sequence ends in 2, 3;
    the step appends 3 - 2 = 1 (the other order would give -1). *)
Lemma markov_step_argument_order_witness :
  exists mc' w',
    markov_step 0%nat 1
      (mkMarkovChain [[0x1p+0%float]] [fun x y => Ok (x - y)] ["x - y"%string] 0)
      (caller_world [2; 3] []) = (Ok mc', w') /\
    deref w' 0%nat = Some ([] ++ [2; 3] ++ [1]).
Proof.
  eapply (markov_step_argument_order 0%nat 1
            (mkMarkovChain [[0x1p+0%float]] [fun x y => Ok (x - y)] ["x - y"%string] 0)
            (caller_world [2; 3] []) [] 2 3 1).
  - reflexivity.
  - reflexivity.
  - reflexivity.
  - reflexivity.
  - discriminate.
  - reflexivity.
Defined.

(** ** One state that adds *)

(** The only entry of the pool that is named [x + y] is the addition. *)
Lemma picked_addition (picks : list nat) :
  legal_picks 16 1 picks = true ->
  map snd (take_picks operation_pool picks) = ["x + y"%string] ->
  map fst (take_picks operation_pool picks)
  = @cons operator (fun x y => Ok (x + y)) nil.
Proof.
  intros Hlegal Hnames. apply legal_picks_spec in Hlegal.
  destruct Hlegal as (Hlen & Hrange & _).
  destruct picks as [|p [|q t]]; try discriminate Hlen.
  apply Forall_inv in Hrange.
  do 16 (destruct p as [|p]; [first [reflexivity | discriminate Hnames]|]).
  lia.
Qed.

(** C4: with the seeds [2; 3], one state whose function is the one named
    [x + y] and [steps = 5], [markov] returns [2; 3; 5; 8; 13; 21],
    whatever the random source answers to the transition sampling. *)
Theorem markov_single_state_addition (l : loc) (w w1 w2 : world)
        (tm : list (list float)) (fs : list operator) :
  deref w l = Some [2; 3] ->
  build_transition_matrix 1 w = (Ok tm, w1) ->
  select_operations 1 w1 = (Ok (fs, ["x + y"%string]), w2) ->
  exists sq w',
    markov l 5 0 1 w = (Ok sq, w') /\
    deref w' sq = Some [2; 3; 5; 8; 13; 21].
Proof.
  unfold deref. intros Hl Hbuild Hsel.
  rewrite (markov_unfold l [2; 3] 5 0 1 w w1 w2 tm fs _ Hl Hbuild Hsel).
  apply build_transition_matrix_Ok in Hbuild. destruct Hbuild as (Hrows & Hrow & _).
  destruct tm as [|row [|row' tm]]; try discriminate Hrows.
  apply Forall_inv in Hrow. change (Z.to_nat 1) with 1%nat in Hrow.
  destruct (select_operations_ok 1 w1 ltac:(lia))
    as (picks & cs & w2' & Hsel' & Hpicks & Hcs & _).
  destruct cs; [|discriminate Hcs]. simpl in Hsel'. rewrite !app_nil_r in Hsel'.
  rewrite Hsel' in Hsel. injection Hsel as Hfs Hnames _.
  rewrite (picked_addition picks Hpicks Hnames) in Hfs. subst fs.
  change (py_range 1 5) with [1; 2; 3; 4]. simpl for_each. unfold bind.
  set (sq := length (heap w)).
  set (f := fun x y : Z => Ok (x + y)).
  destruct (markov_step_single sq 1 f "x + y" row
              (mkWorld (heap w ++ [[2; 3]]) (tape w2) (calls w2)) [] 2 3 5 Hrow)
    as (wa & Ea & Ha); [apply heap_snoc_last | reflexivity |].
  destruct (markov_step_single sq 2 f "x + y" row wa [2] 3 5 8 Hrow Ha eq_refl)
    as (wb & Eb & Hb).
  destruct (markov_step_single sq 3 f "x + y" row wb [2; 3] 5 8 13 Hrow Hb eq_refl)
    as (wc & Ec & Hc).
  destruct (markov_step_single sq 4 f "x + y" row wc [2; 3; 5] 8 13 21 Hrow Hc eq_refl)
    as (wd & Ed & Hd).
  exists sq, wd.
  rewrite Ea, Eb, Ec, Ed.
  split; [reflexivity | exact Hd].
Qed.

Lemma markov_single_state_addition_witness :
  exists sq w',
    markov 0%nat 5 0 1
      (caller_world [2; 3] [Uniform 0x1p-2%float; Sample [0%nat]; Choice 7]) = (Ok sq, w') /\
    deref w' sq = Some [2; 3; 5; 8; 13; 21].
Proof.
  eapply (markov_single_state_addition 0%nat
            (caller_world [2; 3] [Uniform 0x1p-2%float; Sample [0%nat]; Choice 7])).
  - reflexivity.
  - reflexivity.
  - reflexivity.
Defined.

(** ** The caller's list *)

(** C10: [markov] copies the seeds before it generates, and appends to
    the copy only; the list that the caller passed holds the same
    elements after the call, however the call ends. *)
Theorem markov_keeps_initial_values (l : loc) (steps s n : Z) (w : world)
        (vs : list Z) :
  deref w l = Some vs ->
  deref (snd (markov l steps s n w)) l = Some vs.
Proof.
  unfold deref. intros Hl. unfold markov, bind.
  pose proof (build_transition_matrix_heap n w) as H1.
  destruct (build_transition_matrix n w) as [[tm|e] w1]; simpl in *;
    [|now rewrite H1].
  pose proof (select_operations_heap n w1) as H2.
  destruct (select_operations n w1) as [[sel|e] w2]; simpl in *;
    [|now rewrite H2, H1].
  unfold list_copy. rewrite H2, H1, Hl.
  assert (l < length (heap w))%nat as Hlt by (apply nth_error_Some; congruence).
  pose proof (generation_frame (length (heap w)) (py_range 1 steps)
                (mkMarkovChain tm (fst sel) (snd sel) s)
                (mkWorld (heap w ++ [vs]) (tape w2) (calls w2)) l ltac:(lia)) as H3.
  simpl in H3. rewrite nth_error_app1 in H3 by assumption.
  destruct (for_each _ _ _ _) as [[mc'|e] w']; simpl in *; congruence.
Qed.

Lemma markov_keeps_initial_values_witness :
  deref (snd (markov 0%nat 5 0 1 (caller_world [2; 3] []))) 0%nat = Some [2; 3].
Proof.
  apply (markov_keeps_initial_values 0%nat 5 0 1 (caller_world [2; 3] []) [2; 3]).
  reflexivity.
Defined.

(** ** Fewer than two seeds *)

(** C5, as the specification states it, fails: the call with the seeds
    [5] raises [IndexError]; no [InsufficientSeedError] is raised. *)
Lemma markov_short_seed_is_not_checked :
  ~ (forall (l : loc) (init : list Z) (steps s n : Z) (w : world),
        deref w l = Some init ->
        (length init < 2)%nat ->
        exists w', markov l steps s n w = (Raise InsufficientSeedError, w')).
Proof.
  intros H.
  destruct (H 0%nat [5] 5 0 1 (caller_world [5] []) eq_refl ltac:(simpl; lia))
    as (w' & Hw).
  vm_compute in Hw. discriminate Hw.
Qed.

(** C5, amended: [markov] does not check the number of seeds.  With fewer
    than two seeds (and inputs that are valid otherwise), the matrix and
    the functions are drawn first, which takes [setup_calls num_states]
    calls into [random], and the seeds are copied; then, if [steps >= 2],
    the first step of the loop raises [IndexError] before it appends
    anything, and if [steps <= 1] the call returns the copy of the
    seeds. *)
Theorem markov_short_seed (l : loc) (init : list Z) (steps s n : Z)
        (w w1 : world) (tm : list (list float)) :
  deref w l = Some init ->
  (length init < 2)%nat ->
  1 <= n ->
  0 <= s < n ->
  build_transition_matrix n w = (Ok tm, w1) ->
  (2 <= steps ->
   exists w',
     markov l steps s n w = (Raise IndexError, w') /\
     heap w' = heap w ++ [init] /\
     calls w' = (calls w + setup_calls n)%nat /\
     (0 < setup_calls n)%nat) /\
  (steps <= 1 ->
   exists sq w',
     markov l steps s n w = (Ok sq, w') /\ deref w' sq = Some init).
Proof.
  unfold deref. intros Hl Hlen Hn Hs Hbuild. split; intros Hsteps.
  - destruct (markov_first_step_raises l init steps s n w w1 tm Hl ltac:(lia) Hsteps Hbuild)
      as (w' & Hrun & Hheap & Hcalls).
    + intros fs names w3 Hfs Hnames Hsq.
      destruct (py_index_in_range fs s) as (f & Hf & _); [rewrite Hfs; lia|].
      destruct (py_index_in_range names s) as (name & Hname & _); [rewrite Hnames; lia|].
      now apply (markov_step_short _ _ _ _ init f name).
    + exists w'. repeat split; auto. unfold setup_calls. lia.
  - destruct (markov_no_step l init steps s n w w1 tm Hl ltac:(lia) Hsteps Hbuild)
      as (w' & Hrun & Hsq).
    eauto.
Qed.

Lemma markov_short_seed_witness :
  (2 <= 5 ->
   exists w',
     markov 0%nat 5 0 1 (caller_world [5] []) = (Raise IndexError, w') /\
     heap w' = heap (caller_world [5] []) ++ [[5]] /\
     calls w' = Nat.add (calls (caller_world [5] [])) (setup_calls 1) /\
     (0 < setup_calls 1)%nat) /\
  (5 <= 1 ->
   exists sq w',
     markov 0%nat 5 0 1 (caller_world [5] []) = (Ok sq, w') /\
     deref w' sq = Some [5]).
Proof.
  eapply (markov_short_seed 0%nat [5] 5 0 1 (caller_world [5] [])).
  - reflexivity.
  - simpl; lia.
  - lia.
  - lia.
  - reflexivity.
Defined.

(** ** The initial state *)




(** ** A row of zeros *)

(** C7, as the specification states it, fails: when the draws of the
    first row of a matrix of two states are all zero, the construction
    raises; no matrix is built. *)
Lemma zero_row_is_not_recovered :
  ~ (forall (n : Z) (w w1 : world),
        1 <= n ->
        repeat_call (Z.to_nat n) random_random w
          = (Ok (repeat 0%float (Z.to_nat n)), w1) ->
        exists tm w', build_transition_matrix n w = (Ok tm, w')).
Proof.
  intros H.
  destruct (H 2 (caller_world [2; 3] [Uniform 0%float; Uniform 0%float]) _
              ltac:(lia) eq_refl) as (tm & w' & Hw).
  vm_compute in Hw. discriminate Hw.
Qed.

(** C7, amended: there is no fallback.  If every value drawn for the row
    of some state is exactly zero, the sum of the row is zero, the
    normalisation of line 94 divides by it, and the construction of the
    matrix, and with it the call of [markov], raises
    [ZeroDivisionError]. *)
Theorem zero_row_raises (n i : Z) (w w1 w2 : world) (tm : list (list float)) :
  0 <= i < n ->
  for_each (py_range 0 i) (transition_row n) [] w = (Ok tm, w1) ->
  repeat_call (Z.to_nat n) random_random w1
    = (Ok (repeat 0%float (Z.to_nat n)), w2) ->
  build_transition_matrix n w = (Raise ZeroDivisionError, w2) /\
  forall (l : loc) (steps s : Z),
    markov l steps s n w = (Raise ZeroDivisionError, w2).
Proof.
  intros Hi Hbefore Hrow.
  assert (build_transition_matrix n w = (Raise ZeroDivisionError, w2)) as Hbuild.
  { unfold build_transition_matrix.
    rewrite (py_range_split 0 i n) by lia.
    rewrite (for_each_app _ _ _ _ _ _ _ Hbefore).
    simpl for_each. unfold bind at 1. unfold transition_row at 1.
    unfold bind at 1. rewrite Hrow.
    unfold bind, lift. rewrite normalize_row_zeros by lia. reflexivity. }
  split; [exact Hbuild|].
  intros l steps s. unfold markov, bind. now rewrite Hbuild.
Qed.

(** The witness: two states; the first row is drawn as 1/4, 1/4, the
    second as 0, 0. *)
Lemma zero_row_raises_witness :
  let w := caller_world [2; 3]
             [Uniform 0x1p-2%float; Uniform 0x1p-2%float;
              Uniform 0%float; Uniform 0%float] in
  build_transition_matrix 2 w = (Raise ZeroDivisionError, mkWorld [[2; 3]] [] 4) /\
  forall (l : loc) (steps s : Z),
    markov l steps s 2 w = (Raise ZeroDivisionError, mkWorld [[2; 3]] [] 4).
Proof.
  eapply (zero_row_raises 2 1).
  - lia.
  - reflexivity.
  - reflexivity.
Defined.

(** ** The selected operators *)

Lemma operation_pool_names_distinct : NoDup (map snd operation_pool).
Proof.
  simpl.
  repeat (constructor;
          [simpl; intros H; repeat (destruct H as [H|H]; [discriminate H|]); exact H|]).
  constructor.
Qed.

Lemma take_picks_positions {A : Type} (population : list A) (picks : list nat) :
  Forall (fun p => (p < length population)%nat) picks ->
  Forall2 (fun p e => nth_error population p = Some e) picks
          (take_picks population picks).
Proof.
  induction 1 as [|p t Hp _ IH]; [constructor|].
  unfold take_picks in *. simpl.
  destruct (nth_error population p) eqn:E.
  - simpl. constructor; assumption.
  - apply nth_error_None in E. lia.
Qed.

Lemma take_picks_NoDup {A B : Type} (g : A -> B) (population : list A)
      (picks : list nat) :
  NoDup (map g population) ->
  NoDup picks ->
  NoDup (map g (take_picks population picks)).
Proof.
  intros Hpop. induction 1 as [|p t Hp Ht IH]; [constructor|].
  unfold take_picks in *. simpl. rewrite map_app.
  destruct (nth_error population p) as [e|] eqn:E; [|exact IH].
  simpl. constructor; [|exact IH].
  intros Hin. apply in_map_iff in Hin. destruct Hin as (e' & Hg & He').
  apply in_flat_map in He'. destruct He' as (q & Hq & He').
  destruct (nth_error population q) as [x|] eqn:E'; [|contradiction].
  destruct He' as [->|[]].
  assert (p = q) as ->; [|contradiction].
  rewrite NoDup_nth_error in Hpop. apply Hpop.
  - rewrite length_map. apply nth_error_Some. congruence.
  - rewrite !nth_error_map, E, E'. simpl. congruence.
Qed.

Lemma combine_fst_snd {A B : Type} (l : list (A * B)) :
  combine (map fst l) (map snd l) = l.
Proof. induction l as [|[a b] t IH]; simpl; congruence. Qed.

Lemma combine_snoc {A B : Type} (l1 l2 : list A) (m1 m2 : list B) :
  length l1 = length m1 ->
  combine (l1 ++ l2) (m1 ++ m2) = combine l1 m1 ++ combine l2 m2.
Proof.
  revert m1. induction l1 as [|a l1 IH]; intros [|b m1] H; simpl in *;
    try discriminate; [reflexivity|].
  f_equal. apply IH. lia.
Qed.

Lemma combine_variations (cs : list Z) :
  combine (map variation cs) (map variation_name cs)
  = map (fun c => (variation c, variation_name c)) cs.
Proof. induction cs as [|c cs IH]; simpl; congruence. Qed.

(** C8, as the specification states it, fails: with 18 states and the
    random integers 3 and 3, the two operators that are added carry the
    same label. *)
Lemma variation_labels_repeat :
  ~ (forall (n : Z) (w w' : world) (fs : list operator) (names : list string),
        0 <= n ->
        select_operations n w = (Ok (fs, names), w') ->
        NoDup (skipn 16 names)).
Proof.
  intros H.
  specialize (H 18 (caller_world [2; 3] [Sample (seq 0 16); Randint 3; Randint 3])
                _ _ _ ltac:(lia) eq_refl).
  vm_compute in H. inversion H as [|x t Hnotin _]. apply Hnotin. now left.
Qed.

(** C8, amended: for [num_states >= 0], [select_operations] returns
    [num_states] functions and as many names, in the order of the states.
    The first [min(num_states, 16)] are entries of the pool at positions
    that are all different, so their labels are all different; if
    [num_states > 16], the other [num_states - 16] are the operators
    [x + y + c] for random integers [c] between 1 and 5, each with the
    label [x + y + c] written with its [c].  (Nothing makes the labels of
    the added operators differ from one another or from the pool's
    [x + y + 1].) *)
Theorem select_operations_contract (n : Z) (w : world) :
  0 <= n ->
  exists (picks : list nat) (cs : list Z) (fs : list operator)
         (names : list string) (w' : world),
    select_operations n w = (Ok (fs, names), w') /\
    length fs = Z.to_nat n /\ length names = Z.to_nat n /\
    combine fs names =
      take_picks operation_pool picks
      ++ map (fun c => (variation c, variation_name c)) cs /\
    length picks = Z.to_nat (Z.min n 16) /\
    NoDup picks /\
    Forall2 (fun p e => nth_error operation_pool p = Some e) picks
            (take_picks operation_pool picks) /\
    NoDup (map snd (take_picks operation_pool picks)) /\
    length cs = Z.to_nat (n - 16) /\
    Forall (fun c => 1 <= c <= 5) cs.
Proof.
  intros Hn.
  destruct (select_operations_ok n w Hn)
    as (picks & cs & w' & Hsel & Hpicks & Hcs & Hall & _).
  apply legal_picks_spec in Hpicks. destruct Hpicks as (Hlen & Hrange & Hnodup).
  exists picks, cs. eexists _, _, w'. split; [exact Hsel|].
  rewrite !length_app, !length_map, take_picks_length by exact Hrange.
  rewrite combine_snoc by now rewrite !length_map.
  rewrite combine_fst_snd, combine_variations.
  repeat split; auto; try lia.
  - now apply take_picks_positions.
  - apply take_picks_NoDup; [apply operation_pool_names_distinct | assumption].
Qed.

Lemma select_operations_contract_witness :
  exists (picks : list nat) (cs : list Z) (fs : list operator)
         (names : list string) (w' : world),
    select_operations 18 (caller_world [2; 3] []) = (Ok (fs, names), w') /\
    length fs = Z.to_nat 18 /\ length names = Z.to_nat 18 /\
    combine fs names =
      take_picks operation_pool picks
      ++ map (fun c => (variation c, variation_name c)) cs /\
    length picks = Z.to_nat (Z.min 18 16) /\
    NoDup picks /\
    Forall2 (fun p e => nth_error operation_pool p = Some e) picks
            (take_picks operation_pool picks) /\
    NoDup (map snd (take_picks operation_pool picks)) /\
    length cs = Z.to_nat (18 - 16) /\
    Forall (fun c => 1 <= c <= 5) cs.
Proof.
  apply (select_operations_contract 18 (caller_world [2; 3] [])). lia.
Defined.

(** ** The division operators *)

(** C9: the operators of the pool named [x // y] and [y // x] never
    raise: a divisor that is zero is replaced by 1, so [x // y] is [x]
    when [y] is zero, and [y // x] is [y] when [x] is zero. *)
Theorem division_operators_total (f : operator) (x y : Z) :
  (In (f, "x // y"%string) operation_pool ->
   f x y = Ok (x / (if y =? 0 then 1 else y)) /\ (y = 0 -> f x y = Ok x)) /\
  (In (f, "y // x"%string) operation_pool ->
   f x y = Ok (y / (if x =? 0 then 1 else x)) /\ (x = 0 -> f x y = Ok y)).
Proof.
  split; intros Hin; simpl in Hin;
    repeat (destruct Hin as [Hin|Hin]; [try discriminate Hin|]);
    try contradiction;
    injection Hin as <-; rewrite py_floordiv_guarded;
    (split; [reflexivity | intros ->; simpl; now rewrite Z.div_1_r]).
Qed.

(** The witness: 7 // 0 with the guard is 7 // 1 = 7. *)
Lemma division_operators_total_witness :
  let f : operator := fun x y => py_floordiv x (if negb (y =? 0) then y else 1) in
  f 7 0 = Ok (7 / (if 0 =? 0 then 1 else 0)) /\ (0 = 0 -> f 7 0 = Ok 7).
Proof.
  apply (proj1 (division_operators_total
                  (fun x y => py_floordiv x (if negb (y =? 0) then y else 1)) 7 0)).
  simpl. do 14 right. left. reflexivity.
Defined.

(** * Further properties of [random_markov.py] *)

(** ** What a subscript can do *)


Lemma py_index_member {A : Type} (l : list A) (i : Z) (x : A) :
  py_index l i = Ok x -> In x l.
Proof.
  unfold py_index. destruct (py_position (length l) i) as [p|]; [|discriminate].
  destruct (nth_error l p) eqn:E; [|discriminate].
  intros H; injection H as <-. eapply nth_error_In; eassumption.
Qed.

Lemma py_index_Ok_range {A : Type} (l : list A) (i : Z) (x : A) :
  py_index l i = Ok x -> - Z.of_nat (length l) <= i < Z.of_nat (length l).
Proof.
  intros H.
  destruct (Z.lt_ge_cases i (- Z.of_nat (length l))) as [Hlo|Hlo];
    [rewrite py_index_out_of_range in H by lia; discriminate|].
  destruct (Z.lt_ge_cases i (Z.of_nat (length l))) as [Hhi|Hhi]; [lia|].
  rewrite py_index_out_of_range in H by lia. discriminate.
Qed.

(** The two reads of a step succeed exactly on a list that ends in two
    values, and return those. *)
Lemma last_two_read (vs : list Z) (a b : Z) :
  py_index vs (-1) = Ok b ->
  py_index vs (-2) = Ok a ->
  exists pre, vs = pre ++ [a; b].
Proof.
  intros Hb Ha. apply py_index_Ok_range in Ha as Hlen.
  destruct (last_two vs ltac:(lia)) as (pre & a' & b' & ->).
  rewrite py_index_last in Hb. rewrite py_index_before_last in Ha.
  injection Hb as ->. injection Ha as ->. now exists pre.
Qed.

(** ** [MarkovChain.update_state] *)



(** ** The steps of the loop, read backwards *)

(** What a step that returned has done. *)
Lemma markov_step_returned (sq : loc) (step : Z) (mc mc' : MarkovChain)
      (w w' : world) (vs : list Z) :
  markov_step sq step mc w = (Ok mc', w') ->
  nth_error (heap w) sq = Some vs ->
  exists f pre a b v row,
    In f (functions_matrix mc) /\
    vs = pre ++ [a; b] /\
    f b a = Ok v /\
    nth_error (heap w') sq = Some (vs ++ [v]) /\
    length (heap w') = length (heap w) /\
    calls w' = S (calls w) /\
    transition_matrix mc' = transition_matrix mc /\
    functions_matrix mc' = functions_matrix mc /\
    function_names mc' = function_names mc /\
    In row (transition_matrix mc) /\
    0 <= state mc' < Z.of_nat (length row).
Proof.
  intros Hstep Hsq. unfold markov_step in Hstep.
  unfold bind at 1 in Hstep. unfold lift at 1 in Hstep.
  destruct (py_index (functions_matrix mc) (state mc)) as [f|] eqn:Hf; [|discriminate].
  unfold bind at 1 in Hstep. unfold lift at 1 in Hstep.
  destruct (py_index (function_names mc) (state mc)) as [name|]; [|discriminate].
  unfold bind at 1 in Hstep. unfold load in Hstep. rewrite Hsq in Hstep.
  unfold bind at 1 in Hstep. unfold lift at 1 in Hstep.
  destruct (py_index vs (-1)) as [b|] eqn:Hb; [|discriminate].
  unfold bind at 1 in Hstep. unfold lift at 1 in Hstep.
  destruct (py_index vs (-2)) as [a|] eqn:Ha; [|discriminate].
  unfold bind at 1 in Hstep. unfold lift at 1 in Hstep.
  destruct (f b a) as [v|] eqn:Hv; [|discriminate].
  unfold bind at 1 in Hstep. unfold list_append in Hstep. rewrite Hsq in Hstep.
  unfold update_state in Hstep.
  unfold bind at 1 in Hstep. unfold lift at 1 in Hstep.
  destruct (py_index (transition_matrix mc) (state mc)) as [row|] eqn:Hrow;
    [|discriminate].
  destruct row as [|p t].
  { unfold bind, random_choices in Hstep. discriminate. }
  set (w1 := mkWorld (list_set (heap w) sq (vs ++ [v])) (tape w) (calls w)) in *.
  destruct (random_choices_ok (p :: t) w1 ltac:(discriminate)) as (j & Hj & Hchoice).
  unfold bind, ret in Hstep. rewrite Hchoice in Hstep.
  injection Hstep as <- <-.
  destruct (last_two_read vs a b Hb Ha) as (pre & Hvs).
  exists f, pre, a, b, v, (p :: t).
  rewrite next_draw_heap, next_draw_calls. simpl heap. simpl calls.
  rewrite list_set_length.
  repeat split; auto.
  - eapply py_index_member; eassumption.
  - apply list_set_same. apply nth_error_Some. congruence.
  - eapply py_index_member; eassumption.
  - simpl. lia.
  - simpl in *. lia.
Qed.

(** What a loop that returned has done. *)
Lemma generation_returned (sq : loc) (xs : list Z) :
  forall (mc mc' : MarkovChain) (w w' : world) (vs : list Z),
    for_each xs (markov_step sq) mc w = (Ok mc', w') ->
    nth_error (heap w) sq = Some vs ->
    exists new,
      nth_error (heap w') sq = Some (vs ++ new) /\
      length new = length xs /\
      length (heap w') = length (heap w) /\
      calls w' = (calls w + length xs)%nat /\
      transition_matrix mc' = transition_matrix mc /\
      functions_matrix mc' = functions_matrix mc /\
      function_names mc' = function_names mc /\
      (xs <> [] ->
       exists row, In row (transition_matrix mc) /\
                   0 <= state mc' < Z.of_nat (length row)) /\
      (forall k, (k < length new)%nat ->
         exists f pre a b,
           In f (functions_matrix mc) /\
           vs ++ firstn k new = pre ++ [a; b] /\
           f b a = Ok (nth k new 0)).
Proof.
  induction xs as [|x xs IH]; intros mc mc' w w' vs Hrun Hsq; simpl in Hrun.
  - unfold ret in Hrun. injection Hrun as <- <-.
    exists []. rewrite app_nil_r. repeat split; auto; try congruence.
    simpl. intros k Hk. lia.
  - unfold bind in Hrun.
    destruct (markov_step sq x mc w) as [[mc1|e] w1] eqn:Hstep; [|discriminate].
    destruct (markov_step_returned sq x mc mc1 w w1 vs Hstep Hsq)
      as (f & pre & a & b & v & row & Hf & Hvs & Hv & Hsq1 & Hsize1 & Hcalls1
          & Htm1 & Hfs1 & Hnames1 & Hrow1 & Hstate1).
    destruct (IH mc1 mc' w1 w' (vs ++ [v]) Hrun Hsq1)
      as (new & Hsq' & Hlen & Hsize & Hcalls & Htm & Hfs & Hnames & Hstate & Hall).
    exists (v :: new). rewrite <- app_assoc in Hsq'. simpl in Hsq'.
    simpl length. repeat split; try congruence; try lia.
    + intros _. destruct xs as [|x' xs'].
      * simpl in Hrun. unfold ret in Hrun. injection Hrun as <- <-.
        exists row. split; assumption.
      * destruct Hstate as (row' & Hrow' & Hst); [discriminate|].
        exists row'. split; [congruence | assumption].
    + intros [|k] Hk.
      * exists f, pre, a, b. simpl. rewrite app_nil_r. repeat split; assumption.
      * destruct (Hall k ltac:(simpl in Hk; lia)) as (g & pre' & a' & b' & Hg & Hpre & Hval).
        exists g, pre', a', b'. simpl. rewrite <- app_assoc in Hpre. simpl in Hpre.
        repeat split; try assumption; congruence.
Qed.

(** X2: the loop never changes the chain's matrix, functions or names:
    when it returns, they are the ones it started with, and after at
    least one step the state is a position of a row of the matrix, hence
    not negative. *)
Theorem generation_keeps_chain (sq : loc) (xs : list Z) (mc mc' : MarkovChain)
        (w w' : world) (vs : list Z) :
  for_each xs (markov_step sq) mc w = (Ok mc', w') ->
  deref w sq = Some vs ->
  transition_matrix mc' = transition_matrix mc /\
  functions_matrix mc' = functions_matrix mc /\
  function_names mc' = function_names mc /\
  (xs <> [] ->
   exists row, In row (transition_matrix mc) /\
               0 <= state mc' < Z.of_nat (length row)).
Proof.
  unfold deref. intros Hrun Hsq.
  destruct (generation_returned sq xs mc mc' w w' vs Hrun Hsq)
    as (new & _ & _ & _ & _ & Htm & Hfs & Hnames & Hstate & _).
  repeat split; assumption.
Qed.

Lemma generation_keeps_chain_witness :
  let mc := mkMarkovChain [[0x1p+0%float]] [variation 1] ["x + y + 1"%string] (-1) in
  let mc' := mkMarkovChain [[0x1p+0%float]] [variation 1] ["x + y + 1"%string] 0 in
  transition_matrix mc' = transition_matrix mc /\
  functions_matrix mc' = functions_matrix mc /\
  function_names mc' = function_names mc /\
  ([1; 2] <> [] ->
   exists row, In row (transition_matrix mc) /\
               0 <= state mc' < Z.of_nat (length row)).
Proof.
  eapply (generation_keeps_chain 0%nat [1; 2]
            (mkMarkovChain [[0x1p+0%float]] [variation 1] ["x + y + 1"%string] (-1))
            (mkMarkovChain [[0x1p+0%float]] [variation 1] ["x + y + 1"%string] 0)
            (caller_world [2; 3] [])).
  - reflexivity.
  - reflexivity.
Defined.



(** ** The rows of the matrix *)

Lemma py_position_plain (n : nat) (i : Z) :
  0 <= i < Z.of_nat n -> py_position n i = Some (Z.to_nat i).
Proof.
  intros Hi. unfold py_position.
  destruct (Z.ltb_spec i 0); [lia|].
  destruct (Z.leb_spec 0 i); [|lia].
  destruct (Z.ltb_spec i (Z.of_nat n)); [reflexivity | lia].
Qed.





Lemma comprehension_raises {A B : Type} (f : A -> outcome B) (l : list A) (e : exn) :
  comprehension f l = Raise e -> exists p, In p l /\ f p = Raise e.
Proof.
  induction l as [|p t IH]; simpl; [discriminate|].
  destruct (f p) as [y|e0] eqn:E; simpl.
  - destruct (comprehension f t) as [ys|e1]; simpl; [discriminate|].
    intros H. injection H as <-.
    destruct (IH eq_refl) as (q & Hq & Hfq). exists q. auto.
  - intros H. injection H as <-. exists p. auto.
Qed.

Lemma normalize_row_raises (i : Z) (row : list float) (e : exn) :
  0 <= i < Z.of_nat (length row) ->
  normalize_row i row = Raise e ->
  e = ZeroDivisionError.
Proof.
  intros Hi. unfold normalize_row.
  destruct (py_index_in_range row i ltac:(lia)) as (d & -> & _). simpl.
  unfold py_setitem. rewrite py_position_plain by assumption. simpl.
  intros H. apply comprehension_raises in H. destruct H as (p & _ & Hp).
  unfold py_truediv in Hp.
  destruct (PrimFloat.eqb _ _); [|discriminate]. now injection Hp as <-.
Qed.

Lemma transition_row_raises (n i : Z) (tm : list (list float)) (w w' : world)
      (e : exn) :
  0 <= i < n ->
  transition_row n i tm w = (Raise e, w') ->
  e = ZeroDivisionError.
Proof.
  intros Hi. unfold transition_row, bind, lift, ret.
  destruct (draw_row_ok (Z.to_nat n) w) as (row & w1 & -> & Hlen & _ & _).
  destruct (normalize_row i row) as [r|e0] eqn:E; [discriminate|].
  intros H. injection H as <- _.
  apply (normalize_row_raises i row); [lia | assumption].
Qed.

Lemma build_rows_raise (n : Z) (xs : list Z) :
  Forall (fun i => 0 <= i < n) xs ->
  forall (tm : list (list float)) (w w' : world) (e : exn),
    for_each xs (transition_row n) tm w = (Raise e, w') ->
    e = ZeroDivisionError.
Proof.
  induction 1 as [|i xs Hi _ IH]; intros tm w w' e; simpl; [discriminate|].
  unfold bind. destruct (transition_row n i tm w) as [[tm1|e1] w1] eqn:E.
  - apply IH.
  - intros H. injection H as <- _. eapply transition_row_raises; eassumption.
Qed.

Lemma py_range_members (n : Z) : Forall (fun i => 0 <= i < n) (py_range 0 n).
Proof.
  apply Forall_forall. intros i Hi. unfold py_range in Hi.
  apply in_map_iff in Hi. destruct Hi as (k & <- & Hk).
  apply in_seq in Hk. lia.
Qed.

Lemma build_transition_matrix_raises (n : Z) (w w' : world) (e : exn) :
  build_transition_matrix n w = (Raise e, w') ->
  e = ZeroDivisionError /\ 1 <= n.
Proof.
  intros H. split.
  - eapply build_rows_raise; [apply py_range_members | exact H].
  - destruct (Z.lt_ge_cases n 1) as [Hn|Hn]; [|assumption].
    unfold build_transition_matrix, py_range in H.
    replace (Z.to_nat (n - 0)) with O in H by lia. discriminate H.
Qed.

(** X4: the transition matrix.  When the construction returns, the
    matrix has [num_states] rows of [num_states] entries, the
    construction has made [num_states * num_states] calls into [random],
    and the store is as before.  When it raises, the exception is
    [ZeroDivisionError] (never [IndexError]: the diagonal subscript is
    always a position of the row), and the store is as before. *)
Theorem transition_matrix_is_square (n : Z) (w w' : world)
        (r : outcome (list (list float))) :
  build_transition_matrix n w = (r, w') ->
  heap w' = heap w /\
  match r with
  | Ok tm =>
      length tm = Z.to_nat n /\
      Forall (fun row => length row = Z.to_nat n) tm /\
      calls w' = (calls w + Z.to_nat n * Z.to_nat n)%nat
  | Raise e => e = ZeroDivisionError /\ 1 <= n
  end.
Proof.
  intros H. split.
  - pose proof (build_transition_matrix_heap n w) as Hh. now rewrite H in Hh.
  - destruct r as [tm|e].
    + now apply build_transition_matrix_Ok in H.
    + now apply build_transition_matrix_raises in H.
Qed.

(** The witness: three states and a script that runs out after two
    draws. *)
Lemma transition_matrix_is_square_witness :
  let w := caller_world [2; 3] [Uniform 0x1p-2%float; Uniform 0x1p-3%float] in
  let r := build_transition_matrix 3 w in
  heap (snd r) = heap w /\
  match fst r with
  | Ok tm =>
      length tm = Z.to_nat 3 /\
      Forall (fun row => length row = Z.to_nat 3) tm /\
      calls (snd r) = (calls w + Z.to_nat 3 * Z.to_nat 3)%nat
  | Raise e => e = ZeroDivisionError /\ 1 <= 3
  end.
Proof.
  intros w r.
  apply (transition_matrix_is_square 3 w (snd r) (fst r)).
  unfold r. now destruct (build_transition_matrix 3 w).
Defined.

(** ** The call as a whole, read backwards *)


(** What a call that returned has done. *)
Lemma markov_returned (l : loc) (init : list Z) (steps s n : Z) (w w' : world)
      (sq : loc) :
  nth_error (heap w) l = Some init ->
  markov l steps s n w = (Ok sq, w') ->
  exists tm w1 fs names w2 mc',
    0 <= n /\
    build_transition_matrix n w = (Ok tm, w1) /\
    select_operations n w1 = (Ok (fs, names), w2) /\
    sq = length (heap w) /\
    for_each (py_range 1 steps) (markov_step sq) (mkMarkovChain tm fs names s)
      (mkWorld (heap w ++ [init]) (tape w2) (calls w2)) = (Ok mc', w').
Proof.
  intros Hl Hrun.
  destruct (build_transition_matrix n w) as [[tm|e] w1] eqn:Hbuild;
    [|unfold markov, bind in Hrun; rewrite Hbuild in Hrun; discriminate].
  destruct (select_operations n w1) as [[[fs names]|e] w2] eqn:Hsel;
    [|unfold markov, bind in Hrun; rewrite Hbuild, Hsel in Hrun; discriminate].
  assert (0 <= n) as Hn.
  { destruct (Z.lt_ge_cases n 0) as [Hneg|]; [|assumption].
    rewrite select_operations_negative in Hsel by assumption. discriminate. }
  rewrite (markov_unfold l init steps s n w w1 w2 tm fs names Hl Hbuild Hsel) in Hrun.
  destruct (for_each _ _ _ _) as [[mc'|e] w3] eqn:Hgen; [|discriminate].
  injection Hrun as <- <-.
  exists tm, w1, fs, names, w2, mc'. repeat split; auto.
Qed.








(** X8: a call that returns has made [num_states * num_states] calls
    into [random] for the matrix, one for the sample, one for each state
    beyond the 16 of the pool, and one for each value it appended. *)
Theorem markov_random_calls (l : loc) (init : list Z) (steps s n : Z)
        (w w' : world) (sq : loc) :
  deref w l = Some init ->
  markov l steps s n w = (Ok sq, w') ->
  Z.of_nat (calls w') =
    Z.of_nat (calls w) + n * n + 1 + Z.max 0 (n - 16) + Z.max 0 (steps - 1).
Proof.
  unfold deref. intros Hl Hrun.
  destruct (markov_returned l init steps s n w w' sq Hl Hrun)
    as (tm & w1 & fs & names & w2 & mc' & Hn & Hbuild & Hsel & -> & Hgen).
  apply build_transition_matrix_Ok in Hbuild. destruct Hbuild as (_ & _ & Hc1).
  destruct (select_operations_shape n w1 Hn)
    as (fs' & names' & w2' & Hsel' & _ & _ & _ & _ & Hc2).
  rewrite Hsel in Hsel'. injection Hsel' as _ _ <-.
  destruct (generation_returned _ _ _ _ _ _ init Hgen (heap_snoc_last _ _))
    as (new & _ & _ & _ & Hc3 & _).
  rewrite py_range_length in Hc3. simpl in Hc3. lia.
Qed.

Lemma markov_random_calls_witness :
  Z.of_nat (calls (mkWorld [[2; 3]; [2; 3; 5; 8; 13; 21]] [] 6)) =
    Z.of_nat (calls (caller_world [2; 3] [])) + 1 * 1 + 1 + Z.max 0 (1 - 16)
    + Z.max 0 (5 - 1).
Proof.
  apply (markov_random_calls 0%nat [2; 3] 5 0 1 (caller_world [2; 3] [])
           (mkWorld [[2; 3]; [2; 3; 5; 8; 13; 21]] [] 6) 1%nat).
  - reflexivity.
  - reflexivity.
Defined.

(** X9: every value of a returned sequence after the seeds is the value,
    at the two values before it (the nearer one first), of an operator of
    the pool or of an operator [x + y + c] with [c] between 1 and 5. *)
Theorem markov_values_follow_operators (l : loc) (init : list Z)
        (steps s n : Z) (w w' : world) (sq : loc) :
  deref w l = Some init ->
  markov l steps s n w = (Ok sq, w') ->
  exists appended,
    deref w' sq = Some (init ++ appended) /\
    Z.of_nat (length appended) = Z.max 0 (steps - 1) /\
    forall k, (k < length appended)%nat ->
      exists f pre a b,
        ((exists name, In (f, name) operation_pool) \/
         (exists c, 1 <= c <= 5 /\ f = variation c)) /\
        init ++ firstn k appended = pre ++ [a; b] /\
        f b a = Ok (nth k appended 0).
Proof.
  unfold deref. intros Hl Hrun.
  destruct (markov_returned l init steps s n w w' sq Hl Hrun)
    as (tm & w1 & fs & names & w2 & mc' & Hn & Hbuild & Hsel & -> & Hgen).
  destruct (select_operations_ok n w1 Hn)
    as (picks & cs & w2' & Hsel' & _ & _ & Hcs & _).
  rewrite Hsel in Hsel'. injection Hsel' as Hfs _ _.
  destruct (generation_returned _ _ _ _ _ _ init Hgen (heap_snoc_last _ _))
    as (new & Hsq & Hlen & _ & _ & _ & _ & _ & _ & Hall).
  exists new. split; [exact Hsq|]. split.
  { rewrite Hlen, py_range_length. lia. }
  intros k Hk. destruct (Hall k Hk) as (f & pre & a & b & Hf & Hpre & Hval).
  exists f, pre, a, b. split; [|split; assumption].
  simpl in Hf. rewrite Hfs in Hf. apply in_app_or in Hf. destruct Hf as [Hf|Hf].
  - left. apply in_map_iff in Hf. destruct Hf as ([g name] & <- & Hg).
    exists name. cbn [fst]. eapply take_picks_In; eassumption.
  - right. apply in_map_iff in Hf. destruct Hf as (c & <- & Hc).
    exists c. split; [|reflexivity].
    rewrite Forall_forall in Hcs. now apply Hcs.
Qed.

Lemma markov_values_follow_operators_witness :
  exists appended,
    deref (mkWorld [[2; 3]; [2; 3; 1; -2; -3]] [] 5) 1%nat = Some ([2; 3] ++ appended) /\
    Z.of_nat (length appended) = Z.max 0 (4 - 1) /\
    forall k, (k < length appended)%nat ->
      exists f pre a b,
        ((exists name, In (f, name) operation_pool) \/
         (exists c, 1 <= c <= 5 /\ f = variation c)) /\
        [2; 3] ++ firstn k appended = pre ++ [a; b] /\
        f b a = Ok (nth k appended 0).
Proof.
  apply (markov_values_follow_operators 0%nat [2; 3] 4 0 1
           (caller_world [2; 3] [Uniform 0x1p-2%float; Sample [1%nat]])).
  - reflexivity.
  - reflexivity.
Defined.



(** ** More on the operators *)

(** X11: no function that [select_operations] returns ever raises,
    whatever the integers it is applied to; and there are as many names
    as functions. *)
Theorem selected_functions_never_raise (n : Z) (w w' : world)
        (fs : list operator) (names : list string) :
  select_operations n w = (Ok (fs, names), w') ->
  length fs = length names /\
  forall f x y, In f fs -> exists v, f x y = Ok v.
Proof.
  intros Hsel.
  destruct (Z.lt_ge_cases n 0) as [Hn|Hn].
  - rewrite select_operations_negative in Hsel by assumption. discriminate.
  - destruct (select_operations_shape n w Hn)
      as (fs' & names' & w2 & Hsel' & Hfs & Hnames & Htotal & _).
    rewrite Hsel in Hsel'. injection Hsel' as <- <- _.
    split; [congruence|].
    intros f x y Hf. rewrite Forall_forall in Htotal. now apply Htotal.
Qed.

Lemma selected_functions_never_raise_witness :
  let r := select_operations 18 (caller_world [] [Sample [3%nat]; Randint 2]) in
  match fst r with
  | Ok (fs, names) =>
      length fs = length names /\
      forall f x y, In f fs -> exists v, f x y = Ok v
  | Raise _ => False
  end.
Proof.
  intros r.
  destruct (fst r) as [[fs names]|e] eqn:E.
  - apply (selected_functions_never_raise 18
             (caller_world [] [Sample [3%nat]; Randint 2]) (snd r) fs names).
    fold r. rewrite <- E. now destruct r.
  - vm_compute in E. discriminate E.
Defined.

(** X12: the operators named [(x - y) // 2] and [(y - x) // 2] do not
    round down as [//] does: both branches of each give the half of the
    difference rounded up, [(x - y + 1) // 2] and [(y - x + 1) // 2]. *)
Theorem halving_operators_round_up (f : operator) (x y : Z) :
  (In (f, "(x - y) // 2"%string) operation_pool ->
   f x y = Ok ((x - y + 1) / 2) /\
   x - y <= 2 * ((x - y + 1) / 2) <= x - y + 1) /\
  (In (f, "(y - x) // 2"%string) operation_pool ->
   f x y = Ok ((y - x + 1) / 2) /\
   y - x <= 2 * ((y - x + 1) / 2) <= y - x + 1).
Proof.
  assert (forall d, obind (py_mod d 2) (fun r =>
             if r =? 0 then py_floordiv d 2 else py_floordiv (d + 1) 2)
           = Ok ((d + 1) / 2)) as Hhalf.
  { intros d. rewrite py_mod_2. simpl obind.
    destruct (Z.eqb_spec (d mod 2) 0) as [E|E]; [|reflexivity].
    change (py_floordiv d 2) with (Ok (d / 2)). f_equal.
    pose proof (Z.div_mod d 2 ltac:(lia)) as Hd.
    pose proof (Z.div_mod (d + 1) 2 ltac:(lia)) as Hd1.
    pose proof (Z.mod_pos_bound (d + 1) 2 ltac:(lia)). lia. }
  assert (forall d, d <= 2 * ((d + 1) / 2) <= d + 1) as Hbound.
  { intros d. pose proof (Z.div_mod (d + 1) 2 ltac:(lia)) as Hd1.
    pose proof (Z.mod_pos_bound (d + 1) 2 ltac:(lia)). lia. }
  split; intros Hin; simpl in Hin;
    repeat (destruct Hin as [Hin|Hin]; [try discriminate Hin|]);
    try contradiction;
    injection Hin as <-; (split; [apply Hhalf | apply Hbound]).
Qed.

(** The witness: 3 is rounded up to 2, where [3 // 2] is 1. *)
Lemma halving_operators_round_up_witness :
  let f : operator := fun x y =>
    obind (py_mod (x - y) 2) (fun r =>
      if r =? 0 then py_floordiv (x - y) 2 else py_floordiv (x - y + 1) 2) in
  f 5 2 = Ok ((5 - 2 + 1) / 2) /\
  5 - 2 <= 2 * ((5 - 2 + 1) / 2) <= 5 - 2 + 1.
Proof.
  apply (proj1 (halving_operators_round_up
                  (fun x y =>
                     obind (py_mod (x - y) 2) (fun r =>
                       if r =? 0 then py_floordiv (x - y) 2
                       else py_floordiv (x - y + 1) 2)) 5 2)).
  simpl. do 7 right. left. reflexivity.
Defined.

(** ** How the pool is shared out *)

Lemma full_picks (picks : list nat) (p : nat) :
  legal_picks 16 16 picks = true -> (p < 16)%nat -> In p picks.
Proof.
  intros Hlegal Hp. apply legal_picks_spec in Hlegal.
  destruct Hlegal as (Hlen & Hrange & Hnodup).
  assert (incl (seq 0 16) picks) as Hincl.
  { apply NoDup_length_incl; [assumption | rewrite length_seq; lia |].
    intros q Hq. rewrite Forall_forall in Hrange. apply in_seq.
    specialize (Hrange q Hq). lia. }
  apply Hincl. apply in_seq. lia.
Qed.

Lemma take_picks_member {A : Type} (population : list A) (picks : list nat)
      (p : nat) (x : A) :
  In p picks -> nth_error population p = Some x -> In x (take_picks population picks).
Proof.
  intros Hp Hx. unfold take_picks. apply in_flat_map.
  exists p. split; [assumption|]. rewrite Hx. now left.
Qed.

Lemma NoDup_app_disjoint {A : Type} (l1 l2 : list A) (x : A) :
  NoDup (l1 ++ l2) -> In x l1 -> In x l2 -> False.
Proof.
  induction l1 as [|a l1 IH]; simpl; intros Hnd H1 H2; [contradiction|].
  inversion Hnd as [|? ? Hnotin Hnd']; subst.
  destruct H1 as [->|H1].
  - apply Hnotin. apply in_or_app. now right.
  - now apply IH.
Qed.

Lemma NoDup_app_right {A : Type} (l1 l2 : list A) :
  NoDup (l1 ++ l2) -> NoDup l2.
Proof.
  induction l1 as [|a l1 IH]; simpl; intros Hnd; [assumption|].
  inversion Hnd; subst. now apply IH.
Qed.

(** X13: from 21 states on, two states always carry the same label:
    five added operators either share a constant, or use all of 1..5 and
    then one of them is a second [x + y + 1] beside the pool's. *)
Theorem labels_repeat_from_21_states (n : Z) (w w' : world)
        (fs : list operator) (names : list string) :
  21 <= n ->
  select_operations n w = (Ok (fs, names), w') ->
  ~ NoDup names.
Proof.
  intros Hn Hsel Hnodup.
  destruct (select_operations_ok n w ltac:(lia))
    as (picks & cs & w2 & Hsel' & Hpicks & Hlen & Hcs & _).
  rewrite Hsel in Hsel'. injection Hsel' as _ Hnames _. subst names.
  replace (Z.to_nat (Z.min n 16)) with 16%nat in Hpicks by lia.
  assert (~ In 1 cs) as Hone.
  { intros Hin.
    apply (NoDup_app_disjoint _ _ "x + y + 1"%string Hnodup).
    - apply in_map_iff. exists (fun x y => Ok (x + y + 1), "x + y + 1"%string).
      split; [reflexivity|].
      apply (take_picks_member operation_pool picks 3);
        [apply (full_picks picks 3 Hpicks); lia | reflexivity].
    - apply in_map_iff. exists 1. split; [reflexivity | assumption]. }
  apply NoDup_app_right in Hnodup. apply NoDup_map_inv in Hnodup.
  assert (incl cs [2; 3; 4; 5]) as Hincl.
  { intros c Hc. rewrite Forall_forall in Hcs. specialize (Hcs c Hc).
    assert (c <> 1) by (intros ->; contradiction).
    simpl. lia. }
  apply (NoDup_incl_length Hnodup) in Hincl. simpl in Hincl. lia.
Qed.

Lemma labels_repeat_from_21_states_witness :
  let r := select_operations 21
             (caller_world []
                [Sample (seq 0 16); Randint 1; Randint 2; Randint 3; Randint 4;
                 Randint 5]) in
  match fst r with
  | Ok (fs, names) => ~ NoDup names
  | Raise _ => False
  end.
Proof.
  intros r.
  destruct (fst r) as [[fs names]|e] eqn:E.
  - apply (labels_repeat_from_21_states 21
             (caller_world []
                [Sample (seq 0 16); Randint 1; Randint 2; Randint 3; Randint 4;
                 Randint 5]) (snd r) fs names); [lia|].
    fold r. rewrite <- E. now destruct r.
  - vm_compute in E. discriminate E.
Defined.

(** X14: from 16 states on, the first 16 states hold the whole pool:
    their (function, name) pairs are the entries of the pool in some
    order, each entry once. *)
Theorem pool_is_used_up (n : Z) (w w' : world)
        (fs : list operator) (names : list string) :
  16 <= n ->
  select_operations n w = (Ok (fs, names), w') ->
  Permutation (firstn 16 (combine fs names)) operation_pool.
Proof.
  intros Hn Hsel.
  destruct (select_operations_ok n w ltac:(lia))
    as (picks & cs & w2 & Hsel' & Hpicks & _).
  rewrite Hsel in Hsel'. injection Hsel' as -> -> _.
  replace (Z.to_nat (Z.min n 16)) with 16%nat in Hpicks by lia.
  apply legal_picks_spec in Hpicks as Hspec.
  destruct Hspec as (Hlen & Hrange & Hnodup).
  rewrite combine_snoc by now rewrite !length_map.
  rewrite combine_fst_snd.
  assert (length (take_picks operation_pool picks) = 16%nat) as Hlen'.
  { rewrite take_picks_length by exact Hrange. exact Hlen. }
  rewrite firstn_app, Hlen', Nat.sub_diag, firstn_O, app_nil_r.
  rewrite <- Hlen' at 1. rewrite firstn_all.
  change operation_pool with (take_picks operation_pool (seq 0 16)) at 2.
  unfold take_picks. apply Permutation_flat_map.
  apply NoDup_Permutation; [assumption | apply seq_NoDup|].
  intros p. split.
  - intros Hp. rewrite Forall_forall in Hrange. apply in_seq.
    specialize (Hrange p Hp). simpl in Hrange. lia.
  - intros Hp. apply in_seq in Hp. apply (full_picks picks p Hpicks). lia.
Qed.

Lemma pool_is_used_up_witness :
  let r := select_operations 17 (caller_world [] [Sample (rev (seq 0 16))]) in
  match fst r with
  | Ok (fs, names) => Permutation (firstn 16 (combine fs names)) operation_pool
  | Raise _ => False
  end.
Proof.
  intros r.
  destruct (fst r) as [[fs names]|e] eqn:E.
  - apply (pool_is_used_up 17 (caller_world [] [Sample (rev (seq 0 16))])
             (snd r) fs names); [lia|].
    fold r. rewrite <- E. now destruct r.
  - vm_compute in E. discriminate E.
Defined.

(** X15: up to 16 states, the selection makes one call into [random],
    every state gets an entry of the pool, and no two states get the same
    label. *)
Theorem small_selection_is_distinct (n : Z) (w w' : world)
        (fs : list operator) (names : list string) :
  0 <= n <= 16 ->
  select_operations n w = (Ok (fs, names), w') ->
  NoDup names /\
  incl (combine fs names) operation_pool /\
  length names = Z.to_nat n /\
  calls w' = S (calls w).
Proof.
  intros Hn Hsel.
  destruct (select_operations_ok n w ltac:(lia))
    as (picks & cs & w2 & Hsel' & Hpicks & Hcs & _ & _ & Hcalls).
  rewrite Hsel in Hsel'. injection Hsel' as -> -> <-.
  replace (Z.to_nat (n - 16)) with O in * by lia.
  destruct cs; [|discriminate Hcs]. simpl map. rewrite !app_nil_r.
  apply legal_picks_spec in Hpicks. destruct Hpicks as (Hlen & Hrange & Hnodup).
  rewrite combine_fst_snd, length_map, take_picks_length by exact Hrange.
  repeat split; try lia.
  - apply take_picks_NoDup; [apply operation_pool_names_distinct | assumption].
  - intros e He. eapply take_picks_In; eassumption.
Qed.

Lemma small_selection_is_distinct_witness :
  let r := select_operations 3 (caller_world [] [Sample [5%nat; 0%nat; 9%nat]]) in
  match fst r with
  | Ok (fs, names) =>
      NoDup names /\
      incl (combine fs names) operation_pool /\
      length names = Z.to_nat 3 /\
      calls (snd r) = S (calls (caller_world [] [Sample [5%nat; 0%nat; 9%nat]]))
  | Raise _ => False
  end.
Proof.
  intros r.
  destruct (fst r) as [[fs names]|e] eqn:E.
  - apply (small_selection_is_distinct 3
             (caller_world [] [Sample [5%nat; 0%nat; 9%nat]]) (snd r) fs names);
      [lia|].
    fold r. rewrite <- E. now destruct r.
  - vm_compute in E. discriminate E.
Defined.

(** * Properties of [basic.py] *)

(** ** Subscripts from the end *)

Lemma py_index_from_end {A : Type} (l : list A) (k : nat) :
  py_index l (- Z.of_nat (S k)) =
    match nth_error (rev l) k with
    | Some x => Ok x
    | None => Raise IndexError
    end.
Proof.
  destruct (Nat.lt_ge_cases k (length l)) as [Hk|Hk].
  - unfold py_index, py_position.
    destruct (Z.ltb_spec (- Z.of_nat (S k)) 0); [|lia].
    destruct (Z.leb_spec 0 (- Z.of_nat (S k) + Z.of_nat (length l))); [|lia].
    destruct (Z.ltb_spec (- Z.of_nat (S k) + Z.of_nat (length l))
                (Z.of_nat (length l))); [|lia].
    simpl andb. cbv iota.
    replace (Z.to_nat (- Z.of_nat (S k) + Z.of_nat (length l)))
      with (length l - S k)%nat by lia.
    destruct l as [|d t]; [simpl in Hk; lia|].
    rewrite (nth_error_nth' (d :: t) d) by lia.
    rewrite (nth_error_nth' (rev (d :: t)) d) by (rewrite length_rev; lia).
    now rewrite rev_nth by lia.
  - rewrite py_index_out_of_range by lia.
    rewrite (proj2 (nth_error_None (rev l) k)); [reflexivity|].
    rewrite length_rev. lia.
Qed.

Lemma py_index_end_app {A : Type} (pre suffix : list A) (k : nat) :
  (k < length suffix)%nat ->
  py_index (pre ++ suffix) (- Z.of_nat (S k)) = py_index suffix (- Z.of_nat (S k)).
Proof.
  intros Hk. rewrite !py_index_from_end, rev_app_distr.
  rewrite nth_error_app1 by (rewrite length_rev; lia). reflexivity.
Qed.

(** ** The loop of the recurrences *)

Lemma obind_Ok {A : Type} (o : outcome A) : obind o Ok = o.
Proof. now destruct o. Qed.

Lemma recurrence_loop_acc (next : list Z -> outcome Z) (n : nat) :
  forall values acc,
    recurrence_loop next n values acc =
      obind (recurrence_loop next n values []) (fun out => Ok (acc ++ out)).
Proof.
  induction n as [|n IH]; intros values acc; simpl.
  - now rewrite app_nil_r.
  - destruct (next values) as [v|e]; simpl; [|reflexivity].
    rewrite (IH (values ++ [v]) (acc ++ [v])), (IH (values ++ [v]) [v]).
    destruct (recurrence_loop next n (values ++ [v]) []); simpl; [|reflexivity].
    now rewrite <- app_assoc.
Qed.

Lemma recurrence_loop_split (next : list Z -> outcome Z) (m n : nat) :
  forall values,
    recurrence_loop next (m + n) values [] =
      obind (recurrence_loop next m values []) (fun out1 =>
        obind (recurrence_loop next n (values ++ out1) []) (fun out2 =>
          Ok (out1 ++ out2))).
Proof.
  induction m as [|m IH]; intros values; simpl.
  - rewrite app_nil_r. now rewrite obind_Ok.
  - destruct (next values) as [v|e]; simpl; [|reflexivity].
    rewrite (recurrence_loop_acc next (m + n)), (recurrence_loop_acc next m), IH.
    destruct (recurrence_loop next m (values ++ [v]) []) as [out1|e]; simpl;
      [|reflexivity].
    rewrite <- app_assoc. simpl.
    destruct (recurrence_loop next n (values ++ v :: out1) []); reflexivity.
Qed.

(** A rule that returns on every list of [K] values or more makes the
    loop return; each value it yields is the rule at what came before. *)
Lemma recurrence_loop_Ok (next : list Z -> outcome Z) (K : nat) :
  (forall vs, (K <= length vs)%nat -> exists v, next vs = Ok v) ->
  forall n values,
    (K <= length values)%nat ->
    exists out,
      recurrence_loop next n values [] = Ok out /\
      length out = n /\
      forall k, (k < n)%nat -> next (values ++ firstn k out) = Ok (nth k out 0).
Proof.
  intros Htotal. induction n as [|n IH]; intros values Hlen; simpl.
  - exists []. repeat split; auto. intros k Hk. lia.
  - destruct (Htotal values Hlen) as (v & Hv). rewrite Hv. simpl.
    destruct (IH (values ++ [v])) as (out & Hout & Hlen' & Hall).
    { rewrite length_app. simpl. lia. }
    rewrite recurrence_loop_acc, Hout. simpl.
    exists (v :: out). split; [reflexivity|]. split; [simpl; lia|].
    intros [|k] Hk; simpl.
    + now rewrite app_nil_r.
    + specialize (Hall k ltac:(lia)). rewrite <- app_assoc in Hall. exact Hall.
Qed.

Lemma fibonacci_next_Ok (pre : list Z) (a b : Z) :
  fibonacci_next (pre ++ [a; b]) = Ok (b + a).
Proof.
  unfold fibonacci_next. now rewrite py_index_last, py_index_before_last.
Qed.

Lemma tribonacci_next_Ok (pre : list Z) (a b c : Z) :
  tribonacci_next (pre ++ [a; b; c]) = Ok (c + b + a).
Proof.
  assert (py_index (pre ++ [a; b; c]) (-1) = Ok c) as H1
    by exact (py_index_end_app pre [a; b; c] 0 ltac:(simpl; lia)).
  assert (py_index (pre ++ [a; b; c]) (-2) = Ok b) as H2
    by exact (py_index_end_app pre [a; b; c] 1 ltac:(simpl; lia)).
  assert (py_index (pre ++ [a; b; c]) (-3) = Ok a) as H3
    by exact (py_index_end_app pre [a; b; c] 2 ltac:(simpl; lia)).
  unfold tribonacci_next. now rewrite H1, H2, H3.
Qed.

Lemma custom_next_Ok (state : SequenceState) (pre : list Z) (a b : Z) :
  custom_next state (pre ++ [a; b]) = Ok (2 * b - a + step state).
Proof.
  unfold custom_next. now rewrite py_index_last, py_index_before_last.
Qed.

Lemma last_three {A : Type} (l : list A) :
  (3 <= length l)%nat -> exists pre a b c, l = pre ++ [a; b; c].
Proof.
  intros Hl.
  destruct (exists_last (l := l)) as (l1 & c & ->).
  { intros ->. simpl in Hl. lia. }
  rewrite length_app in Hl. simpl in Hl.
  destruct (last_two l1 ltac:(lia)) as (pre & a & b & ->).
  exists pre, a, b, c. now rewrite <- app_assoc.
Qed.

(** ** [fibonacci], [tribonacci], [custom_recurrence] *)

(** X16: on a history of two values or more, [fibonacci] returns
    [num_steps] values (none for a negative [num_steps]), each one the sum
    of the two values before it in the history followed by the values
    returned so far. *)
Theorem fibonacci_contract (state : SequenceState) (num_steps : Z) (l : list Z) :
  current_value state = History l ->
  (2 <= length l)%nat ->
  exists out,
    fibonacci state num_steps = Ok out /\
    Z.of_nat (length out) = Z.max 0 num_steps /\
    forall k, (k < length out)%nat ->
      exists pre a b,
        l ++ firstn k out = pre ++ [a; b] /\ nth k out 0 = b + a.
Proof.
  intros Hcv Hlen. unfold fibonacci. rewrite Hcv.
  destruct (Nat.ltb_spec (length l) 2); [lia|].
  destruct (recurrence_loop_Ok fibonacci_next 2) with (n := Z.to_nat num_steps)
    (values := l) as (out & Hout & Hn & Hall); [|assumption|].
  { intros vs Hvs. destruct (last_two vs Hvs) as (pre & a & b & ->).
    rewrite fibonacci_next_Ok. eauto. }
  exists out. split; [assumption|]. split; [lia|].
  intros k Hk. specialize (Hall k ltac:(lia)).
  destruct (last_two (l ++ firstn k out)) as (pre & a & b & Hpre).
  { rewrite length_app. lia. }
  rewrite Hpre, fibonacci_next_Ok in Hall. injection Hall as Hall.
  exists pre, a, b. split; [assumption | congruence].
Qed.

Lemma fibonacci_contract_witness :
  exists out,
    fibonacci (mkSequenceState (History [0; 1]) 1) 5 = Ok out /\
    Z.of_nat (length out) = Z.max 0 5 /\
    forall k, (k < length out)%nat ->
      exists pre a b,
        [0; 1] ++ firstn k out = pre ++ [a; b] /\ nth k out 0 = b + a.
Proof.
  apply (fibonacci_contract (mkSequenceState (History [0; 1]) 1) 5 [0; 1]).
  - reflexivity.
  - simpl. lia.
Defined.

(** X17: on a history of three values or more, [tribonacci] returns
    [num_steps] values, each one the sum of the three values before
    it. *)
Theorem tribonacci_contract (state : SequenceState) (num_steps : Z) (l : list Z) :
  current_value state = History l ->
  (3 <= length l)%nat ->
  exists out,
    tribonacci state num_steps = Ok out /\
    Z.of_nat (length out) = Z.max 0 num_steps /\
    forall k, (k < length out)%nat ->
      exists pre a b c,
        l ++ firstn k out = pre ++ [a; b; c] /\ nth k out 0 = c + b + a.
Proof.
  intros Hcv Hlen. unfold tribonacci. rewrite Hcv.
  destruct (Nat.ltb_spec (length l) 3); [lia|].
  destruct (recurrence_loop_Ok tribonacci_next 3) with (n := Z.to_nat num_steps)
    (values := l) as (out & Hout & Hn & Hall); [|assumption|].
  { intros vs Hvs. destruct (last_three vs Hvs) as (pre & a & b & c & ->).
    rewrite tribonacci_next_Ok. eauto. }
  exists out. split; [assumption|]. split; [lia|].
  intros k Hk. specialize (Hall k ltac:(lia)).
  destruct (last_three (l ++ firstn k out)) as (pre & a & b & c & Hpre).
  { rewrite length_app. lia. }
  rewrite Hpre, tribonacci_next_Ok in Hall. injection Hall as Hall.
  exists pre, a, b, c. split; [assumption | congruence].
Qed.

Lemma tribonacci_contract_witness :
  exists out,
    tribonacci (mkSequenceState (History [0; 0; 1]) 1) 4 = Ok out /\
    Z.of_nat (length out) = Z.max 0 4 /\
    forall k, (k < length out)%nat ->
      exists pre a b c,
        [0; 0; 1] ++ firstn k out = pre ++ [a; b; c] /\ nth k out 0 = c + b + a.
Proof.
  apply (tribonacci_contract (mkSequenceState (History [0; 0; 1]) 1) 4 [0; 0; 1]).
  - reflexivity.
  - simpl. lia.
Defined.




Lemma recurrences_return (state : SequenceState) (num_steps : Z) (l : list Z) :
  current_value state = History l ->
  ((2 <= length l)%nat -> exists out, fibonacci state num_steps = Ok out) /\
  ((3 <= length l)%nat -> exists out, tribonacci state num_steps = Ok out) /\
  ((2 <= length l)%nat -> exists out, custom_recurrence state num_steps = Ok out).
Proof.
  intros Hcv. unfold fibonacci, tribonacci, custom_recurrence. rewrite Hcv.
  split; [|split]; intros Hlen.
  - destruct (Nat.ltb_spec (length l) 2); [lia|].
    destruct (recurrence_loop_Ok fibonacci_next 2) with (n := Z.to_nat num_steps)
      (values := l) as (out & Hout & _); [|assumption|eauto].
    intros vs Hvs. destruct (last_two vs Hvs) as (pre & a & b & ->).
    rewrite fibonacci_next_Ok. eauto.
  - destruct (Nat.ltb_spec (length l) 3); [lia|].
    destruct (recurrence_loop_Ok tribonacci_next 3) with (n := Z.to_nat num_steps)
      (values := l) as (out & Hout & _); [|assumption|eauto].
    intros vs Hvs. destruct (last_three vs Hvs) as (pre & a & b & c & ->).
    rewrite tribonacci_next_Ok. eauto.
  - destruct (Nat.ltb_spec (length l) 2); [lia|].
    destruct (recurrence_loop_Ok (custom_next state) 2) with (n := Z.to_nat num_steps)
      (values := l) as (out & Hout & _); [|assumption|eauto].
    intros vs Hvs. destruct (last_two vs Hvs) as (pre & a & b & ->).
    rewrite custom_next_Ok. eauto.
Qed.

(** X19: the three recurrences raise nothing but [ValueError], and they
    raise it exactly when the state is not a history that is long enough
    (two values, three for [tribonacci]), whatever [num_steps] is. *)
Theorem recurrences_need_a_history (state : SequenceState) (num_steps : Z) (e : exn) :
  let short (K : nat) :=
    match current_value state with
    | History l => (length l < K)%nat
    | Scalar _ => True
    end in
  (fibonacci state num_steps = Raise e <-> e = ValueError /\ short 2%nat) /\
  (tribonacci state num_steps = Raise e <-> e = ValueError /\ short 3%nat) /\
  (custom_recurrence state num_steps = Raise e <-> e = ValueError /\ short 2%nat).
Proof.
  intros short. unfold short.
  destruct (current_value state) as [x|l] eqn:Hcv.
  - unfold fibonacci, tribonacci, custom_recurrence. rewrite Hcv.
    split; [|split]; (split; [intros H; injection H as <-; auto | intros [-> _]; reflexivity]).
  - split; [|split]; split.
    + intros H.
      destruct (Nat.lt_ge_cases (length l) 2) as [Hl|Hl].
      * unfold fibonacci in H. rewrite Hcv in H.
        destruct (Nat.ltb_spec (length l) 2); [|lia]. injection H as <-. auto.
      * destruct (proj1 (recurrences_return state num_steps l Hcv) Hl) as (out & Hout).
        congruence.
    + intros [-> Hl]. unfold fibonacci. rewrite Hcv.
      destruct (Nat.ltb_spec (length l) 2); [reflexivity | lia].
    + intros H.
      destruct (Nat.lt_ge_cases (length l) 3) as [Hl|Hl].
      * unfold tribonacci in H. rewrite Hcv in H.
        destruct (Nat.ltb_spec (length l) 3); [|lia]. injection H as <-. auto.
      * destruct (proj1 (proj2 (recurrences_return state num_steps l Hcv)) Hl)
          as (out & Hout).
        congruence.
    + intros [-> Hl]. unfold tribonacci. rewrite Hcv.
      destruct (Nat.ltb_spec (length l) 3); [reflexivity | lia].
    + intros H.
      destruct (Nat.lt_ge_cases (length l) 2) as [Hl|Hl].
      * unfold custom_recurrence in H. rewrite Hcv in H.
        destruct (Nat.ltb_spec (length l) 2); [|lia]. injection H as <-. auto.
      * destruct (proj2 (proj2 (recurrences_return state num_steps l Hcv)) Hl)
          as (out & Hout).
        congruence.
    + intros [-> Hl]. unfold custom_recurrence. rewrite Hcv.
      destruct (Nat.ltb_spec (length l) 2); [reflexivity | lia].
Qed.

(** ** Generating in batches *)

Ltac recurrence_in_batches K :=
  match goal with
  | Hm : 0 <= ?m, Hn : 0 <= ?n |- in_batches ?gen ?state ?m ?n =>
      unfold in_batches, gen;
      let l := fresh "l" in
      let Hcv := fresh "Hcv" in
      destruct (current_value state) as [?|l] eqn:Hcv; [reflexivity|];
      destruct (Nat.ltb_spec (length l) K) as [?|Hlen]; [reflexivity|];
      rewrite (Z2Nat.inj_add m n Hm Hn), recurrence_loop_split;
      let out1 := fresh "out1" in
      destruct (recurrence_loop _ (Z.to_nat m) l []) as [out1|?]; cbn [obind];
      [|reflexivity];
      destruct out1 as [|v t]; unfold take_up; cbn [obind];
      [ rewrite Hcv, app_nil_r;
        destruct (Nat.ltb_spec (length l) K); [lia|];
        destruct (recurrence_loop _ (Z.to_nat n) l []); reflexivity
      | rewrite Hcv; cbn [obind current_value];
        destruct (Nat.ltb_spec (length (l ++ v :: t)) K) as [Hshort|?];
        [rewrite length_app in Hshort; lia | reflexivity] ]
  end.

(** X20: the three recurrences work in batches: asking for [m + n]
    values at once gives the values of a request for [m] followed by
    those of a request for [n] made on the history extended by the first
    [m], as [run_sequence] extends it. *)
Theorem recurrences_in_batches (state : SequenceState) (m n : Z) :
  0 <= m ->
  0 <= n ->
  in_batches fibonacci state m n /\
  in_batches tribonacci state m n /\
  in_batches custom_recurrence state m n.
Proof.
  intros Hm Hn. split; [|split].
  - recurrence_in_batches 2%nat.
  - recurrence_in_batches 3%nat.
  - recurrence_in_batches 2%nat.
Qed.

Lemma recurrences_in_batches_witness :
  in_batches fibonacci (mkSequenceState (History [0; 1]) 1) 2 3 /\
  in_batches tribonacci (mkSequenceState (History [0; 1]) 1) 2 3 /\
  in_batches custom_recurrence (mkSequenceState (History [0; 1]) 1) 2 3.
Proof.
  apply (recurrences_in_batches (mkSequenceState (History [0; 1]) 1) 2 3); lia.
Defined.

(** ** [count_by_step], [geometric_sequence], [collatz_sequence] *)




Lemma py_index_last_one {A : Type} (pre : list A) (x : A) :
  py_index (pre ++ [x]) (-1) = Ok x.
Proof. exact (py_index_end_app pre [x] 0 ltac:(simpl; lia)). Qed.

(** The state after values ending in [x] are taken up: its current
    number is [x] and its step is the same. *)
Lemma take_up_last (state : SequenceState) (pre : list Z) (x : Z) :
  exists state1,
    take_up state (pre ++ [x]) = Ok state1 /\
    current_number state1 = Ok x /\
    step state1 = step state.
Proof.
  unfold take_up. destruct (pre ++ [x]) as [|v t] eqn:E.
  { destruct pre; discriminate E. }
  rewrite <- E. destruct (current_value state) as [c|l].
  - rewrite py_index_last_one. simpl. eexists. repeat split.
  - eexists. split; [reflexivity|]. split; [|reflexivity].
    unfold current_number. simpl. rewrite app_assoc. apply py_index_last_one.
Qed.

Lemma take_up_nothing (state : SequenceState) : take_up state [] = Ok state.
Proof. reflexivity. Qed.





(** ** [collatz_sequence] *)

Lemma collatz_loop_acc (n : nat) :
  forall (c : Z) (acc : list Z),
    collatz_loop n c acc = acc ++ collatz_loop n c [].
Proof.
  induction n as [|n IH]; intros c acc; cbn [collatz_loop].
  - now rewrite app_nil_r.
  - destruct (c =? 1); [|destruct (c mod 2 =? 0)];
      rewrite IH, (IH _ ([] ++ _)), <- app_assoc; reflexivity.
Qed.

(** The first step of the loop: the next number is put in front of what
    the loop yields from it. *)
Lemma collatz_loop_first (n : nat) (c : Z) :
  exists c',
    collatz_loop (S n) c [] = c' :: collatz_loop n c' [] /\
    (c = 1 -> c' = 1) /\
    (0 < c -> 0 < c').
Proof.
  cbn [collatz_loop].
  destruct (Z.eqb_spec c 1) as [->|Hc1].
  - exists 1. rewrite collatz_loop_acc. repeat split; auto.
  - destruct (Z.eqb_spec (c mod 2) 0) as [Heven|Hodd].
    + exists (c / 2). rewrite collatz_loop_acc. repeat split; [lia|].
      intros Hc. pose proof (Z.div_mod c 2 ltac:(lia)). lia.
    + exists (3 * c + 1). rewrite collatz_loop_acc. repeat split; lia.
Qed.

Lemma collatz_loop_length (n : nat) :
  forall c, length (collatz_loop n c []) = n.
Proof.
  induction n as [|n IH]; intros c; [reflexivity|].
  destruct (collatz_loop_first n c) as (c' & -> & _). simpl. now rewrite IH.
Qed.

Lemma last_cons {A : Type} (l : list A) :
  forall a d, last (a :: l) d = last l a.
Proof.
  induction l as [|b t IH]; intros a d; [reflexivity|].
  change (last (a :: b :: t) d) with (last (b :: t) d).
  now rewrite !IH.
Qed.

Lemma collatz_loop_split (m n : nat) :
  forall c,
    collatz_loop (m + n) c [] =
      collatz_loop m c [] ++ collatz_loop n (last (collatz_loop m c []) c) [].
Proof.
  induction m as [|m IH]; intros c; [reflexivity|].
  destruct (collatz_loop_first m c) as (c' & Hm & _).
  destruct (collatz_loop_first (m + n) c) as (c'' & Hmn & _).
  assert (c'' = c') as ->.
  { cbn [collatz_loop] in Hm, Hmn.
    destruct (c =? 1); [|destruct (c mod 2 =? 0)];
      rewrite collatz_loop_acc in Hm, Hmn; simpl in Hm, Hmn; congruence. }
  change (S m + n)%nat with (S (m + n)). rewrite Hmn, Hm, IH.
  rewrite last_cons. reflexivity.
Qed.




(** X23: [collatz_sequence] works in batches. *)
Theorem collatz_sequence_in_batches (state : SequenceState) (m n : Z) :
  0 <= m ->
  0 <= n ->
  in_batches collatz_sequence state m n.
Proof.
  intros Hm Hn. unfold in_batches, collatz_sequence.
  destruct (current_number state) as [c|e] eqn:Hcur; cbn [obind]; [|reflexivity].
  rewrite (Z2Nat.inj_add m n Hm Hn), collatz_loop_split.
  destruct (collatz_loop (Z.to_nat m) c []) as [|v t] eqn:E.
  - rewrite take_up_nothing. cbn [obind app last]. now rewrite Hcur.
  - assert (v :: t <> []) as Hne by discriminate.
    rewrite (app_removelast_last c Hne) at 2 3.
    destruct (take_up_last state (removelast (v :: t)) (last (v :: t) c))
      as (state1 & -> & Hcur1 & _).
    cbn [obind]. rewrite Hcur1. cbn [obind].
    now rewrite <- (app_removelast_last c Hne).
Qed.

Lemma collatz_sequence_in_batches_witness :
  in_batches collatz_sequence (mkSequenceState (Scalar 10) 1) 3 4.
Proof.
  apply (collatz_sequence_in_batches (mkSequenceState (Scalar 10) 1) 3 4); lia.
Defined.



(** X25: the generators that read one current number raise nothing but
    [IndexError], exactly on an empty history and even for
    [num_steps = 0]; on any other state they return [num_steps] values. *)
Theorem current_number_generators (state : SequenceState) (num_steps : Z) :
  (current_value state = History [] ->
   count_by_step state num_steps = Raise IndexError /\
   geometric_sequence state num_steps = Raise IndexError /\
   collatz_sequence state num_steps = Raise IndexError) /\
  (current_value state <> History [] ->
   exists out1 out2 out3,
     count_by_step state num_steps = Ok out1 /\
     geometric_sequence state num_steps = Ok out2 /\
     collatz_sequence state num_steps = Ok out3 /\
     Z.of_nat (length out1) = Z.max 0 num_steps /\
     Z.of_nat (length out2) = Z.max 0 num_steps /\
     Z.of_nat (length out3) = Z.max 0 num_steps).
Proof.
  unfold count_by_step, geometric_sequence, collatz_sequence, current_number.
  split.
  - intros ->. repeat split.
  - intros Hne.
    assert (exists c, match current_value state with
                      | Scalar x => Ok x
                      | History values => py_index values (-1)
                      end = Ok c) as (c & ->).
    { destruct (current_value state) as [x|l]; [eauto|].
      destruct (exists_last (l := l)) as (pre & x & ->); [congruence|].
      rewrite py_index_last_one. eauto. }
    cbn [obind]. eexists _, _, _. repeat split.
    + rewrite length_map, py_range_length. lia.
    + rewrite length_map, py_range_length. lia.
    + rewrite collatz_loop_length. lia.
Qed.

(** * The two files together *)



